(** * Splice: batch composition and job reconciliation

    A shallow embedding of [prow/cmd/splice/main.go] and the properties of
    its merge feasibility loop, its batch descriptor, its job reconciler
    and one iteration of its main loop.

    Go [int] values (pull request numbers, the cooldown counter, the batch
    size flag) are [Z]: the program never does arithmetic on them besides
    [cooldown--] from a positive value, so the 64-bit wrap-around is never
    reached.  Go strings are [string].  Go slices built with [append] in a
    [for ... range] loop are lists built by [foldl] with [++ [x]]. *)

From stdpp Require Import base tactics option list strings pretty gmap.

Local Open Scope Z_scope.

(** ** Data of the imported packages *)

Module kube.

(** Modelled from the spec: the declarations of package [kube] are not part
    of the source file.  The job type and the job state are enumerations of
    which [main.go] only compares with [BatchJob] and [SuccessState]. *)
Inductive ProwJobType := PresubmitJob | PostsubmitJob | PeriodicJob | BatchJob.

Inductive ProwJobState :=
  TriggeredState | PendingState | SuccessState | FailureState | AbortedState | ErrorState.

Record Pull := { Number : Z; SHA : string }.

Record Refs := {
  Org : string;
  Repo : string;
  BaseRef : string;
  BaseSHA : string;
  Pulls : list Pull
}.

(** [Type] is a keyword, hence [Type_]; [Refs_] is the field [Refs]. *)
Record ProwJobSpec := {
  Type_ : ProwJobType;
  Job : string;
  Refs_ : Refs;
  Context : string
}.

(** Modelled from the spec: a job record carries [complete : bool], what
    the method [Complete()] of the absent package reports. *)
Record ProwJobStatus := { State : ProwJobState; Completed : bool }.

Record ProwJob := { Spec : ProwJobSpec; Status : ProwJobStatus }.

Definition Complete (j : ProwJob) : bool := Completed (Status j).

#[global] Instance ProwJobType_eq_dec : EqDecision ProwJobType.
Proof. solve_decision. Defined.

#[global] Instance ProwJobState_eq_dec : EqDecision ProwJobState.
Proof. solve_decision. Defined.

End kube.

Module config.

(** Modelled from the spec: the fields of [config.Presubmit] that [main.go]
    reads. *)
Record Presubmit := {
  Name : string;
  Context : string;
  AlwaysRun : bool;
  SkipReport : bool
}.

End config.

(** Functions of the imported packages [kube] and [plank] whose bodies are
    not part of the source file: the canonical string form of a [Refs] and
    the construction of a batch job from a presubmit and a [Refs]
    ([plank.NewProwJob (plank.BatchSpec job refs)]).  Every property below
    holds for all of them. *)
Class Packages := {
  Refs_String : kube.Refs → string;
  NewBatchProwJob : config.Presubmit → kube.Refs → kube.ProwJob
}.

(** ** The job reconciler (pure part of [main.go]) *)

Section Reconciler.
Context `{Packages}.

(** [completedJobs]: the jobs which already passed this commit.  Each
    [continue] of the loop keeps the accumulator. *)
Definition completedJobs (currentJobs : list kube.ProwJob) (refs : kube.Refs)
  : list kube.ProwJob :=
  let rs := Refs_String refs in
  foldl (λ skippable job,
    if bool_decide (kube.Type_ (kube.Spec job) ≠ kube.BatchJob) then skippable
    else if negb (kube.Complete job) then skippable
    else if bool_decide (kube.State (kube.Status job) ≠ kube.SuccessState) then skippable
    else if bool_decide (Refs_String (kube.Refs_ (kube.Spec job)) ≠ rs) then skippable
    else skippable ++ [job]) [] currentJobs.

(** [requiredPresubmits]: the presubmits that always run and report. *)
Definition requiredPresubmits (presubmits : list config.Presubmit)
  : list config.Presubmit :=
  foldl (λ out job,
    if negb (config.AlwaysRun job) then out
    else if config.SkipReport job then out
    else out ++ [job]) [] presubmits.

(** The Go map [skippable]: reading a missing key yields [false]. *)
Definition skippable_of (jobs : list kube.ProwJob) : gmap string bool :=
  foldl (λ skippable job, <[kube.Context (kube.Spec job) := true]> skippable) ∅ jobs.

Definition map_get (m : gmap string bool) (k : string) : bool :=
  default false (m !! k).

(** [neededPresubmits]: the required presubmits which have not already
    passed this commit. *)
Definition neededPresubmits (presubmits : list config.Presubmit)
    (currentJobs : list kube.ProwJob) (refs : kube.Refs) : list config.Presubmit :=
  let skippable := skippable_of (completedJobs currentJobs refs) in
  foldl (λ needed job,
    if map_get skippable (config.Context job) then needed
    else needed ++ [job]) [] (requiredPresubmits presubmits).

(** ** The tests of the three filtering loops, as propositions *)

(** The test of [completedJobs] on one job. *)
Definition passed (refs : kube.Refs) (job : kube.ProwJob) : Prop :=
  kube.Type_ (kube.Spec job) = kube.BatchJob ∧
  kube.Complete job = true ∧
  kube.State (kube.Status job) = kube.SuccessState ∧
  Refs_String (kube.Refs_ (kube.Spec job)) = Refs_String refs.

#[global] Instance passed_dec refs job : Decision (passed refs job).
Proof. unfold passed. apply _. Defined.

(** The test of [requiredPresubmits] on one presubmit. *)
Definition required (job : config.Presubmit) : Prop :=
  config.AlwaysRun job = true ∧ config.SkipReport job = false.

#[global] Instance required_dec job : Decision (required job).
Proof. unfold required. apply _. Defined.

(** The test of the second loop of [neededPresubmits]. *)
Definition pending (currentJobs : list kube.ProwJob) (refs : kube.Refs)
    (job : config.Presubmit) : Prop :=
  config.Context job ∉
    (λ j, kube.Context (kube.Spec j)) <$> completedJobs currentJobs refs.

#[global] Instance pending_dec currentJobs refs job :
  Decision (pending currentJobs refs job).
Proof. unfold pending. apply _. Defined.

End Reconciler.

(** ** The world outside the process *)

(** A Go [error] value: its message. *)
Definition error : Type := string.

(** A Go result pair [(v, err)] of which exactly one side is meaningful. *)
Inductive Res (A : Type) : Type :=
| Ok (a : A)
| Err (e : error).
Arguments Ok {A} a.
Arguments Err {A} e.

Module queue.

(** An entry of the anonymous struct [E2EQueue] decoded by [getQueuedPRs]. *)
Record Entry := { Number : Z; BaseRef : string }.

End queue.

(** The boundary calls of [main.go]: subprocess execution, the HTTP request
    to the submit queue, the decoding of its body, the job backend client
    and the configuration agent.  Each call reads and may change the world;
    the process has no other access to it. *)
Class Env := {
  World : Type;
  Response : Type;
  (** the bytes of a response body *)
  Body : Type;
  (** [exec.Command(binary, args...).CombinedOutput()] *)
  exec_CombinedOutput : string → list string → World → (string * option error) * World;
  (** [http.Get(url)] *)
  http_Get : string → World → Res Response * World;
  (** [ioutil.ReadAll(resp.Body)] *)
  ioutil_ReadAll : Response → World → Res Body * World;
  (** [json.Unmarshal] into the queue struct, giving its [E2EQueue] *)
  json_Unmarshal : Body → Res (list queue.Entry);
  (** [kc.ListProwJobs(nil)] *)
  kc_ListProwJobs : World → Res (list kube.ProwJob) * World;
  (** [kc.CreateProwJob(pj)] *)
  kc_CreateProwJob : kube.ProwJob → World → option error * World;
  (** [ca.Config().Presubmits] *)
  ca_Config_Presubmits : World → gmap string (list config.Presubmit)
}.

(** What an observer of the process sees: one event per boundary call.
    Logging is not modelled. *)
Inductive Event :=
| EvExec (binary : string) (args : list string)
| EvHttpGet (url : string)
| EvReadAll
| EvListProwJobs
| EvCreateProwJob (pj : kube.ProwJob).

Record St `{Env} := { world : World; trace : list Event }.

(** State passing: a computation reads the state and returns its result with
    the state it leaves. *)
Definition M `{Env} (A : Type) : Type := St → A * St.

#[global] Instance M_ret `{Env} : MRet M := λ A a st, (a, st).

#[global] Instance M_bind `{Env} : MBind M :=
  λ A B f m st, let '(a, st') := m st in f a st'.

(** The prow jobs an event trace created, in order. *)
Definition created (tr : list Event) : list kube.ProwJob :=
  omap (λ ev, match ev with EvCreateProwJob pj => Some pj | _ => None end) tr.

(** [unicode.IsSpace] on the UTF-8 encoding of a rune: the ASCII white space
    (tab, line feed, vertical tab, form feed, carriage return, space), the
    two Latin-1 spaces U+0085 and U+00A0 (two bytes), and U+1680,
    U+2000 to U+200A, U+2028, U+2029, U+202F, U+205F and U+3000 (three
    bytes).  Each is the only valid encoding of its rune, and a byte
    sequence that is not valid UTF-8 decodes to the error rune, which is not
    white space. *)
Definition byte_is (a : Stdlib.Strings.Ascii.ascii) (n : N) : bool :=
  N.eqb (Stdlib.Strings.Ascii.N_of_ascii a) n.

Definition space2 (a b : Stdlib.Strings.Ascii.ascii) : bool :=
  byte_is a 194 && (byte_is b 133 || byte_is b 160).

Definition space3 (a b c : Stdlib.Strings.Ascii.ascii) : bool :=
  (byte_is a 225 && byte_is b 154 && byte_is c 128) ||
  (byte_is a 226 && byte_is b 128 &&
   ((N.leb 128 (Stdlib.Strings.Ascii.N_of_ascii c) &&
     N.leb (Stdlib.Strings.Ascii.N_of_ascii c) 138) ||
    byte_is c 168 || byte_is c 169 || byte_is c 175)) ||
  (byte_is a 226 && byte_is b 129 && byte_is c 159) ||
  (byte_is a 227 && byte_is b 128 && byte_is c 128).

(** Drop the white space runes at the front of a string.  With
    [backwards], the string is read from its end, so that the bytes of a
    rune come last byte first. *)
Fixpoint TrimLeft (backwards : bool) (s : string) : string :=
  match s with
  | String a s1 =>
    if Ascii.is_space a then TrimLeft backwards s1
    else
      match s1 with
      | String b s2 =>
        if (if backwards then space2 b a else space2 a b) then TrimLeft backwards s2
        else
          match s2 with
          | String c s3 =>
            if (if backwards then space3 c b a else space3 a b c)
            then TrimLeft backwards s3
            else s
          | EmptyString => s
          end
      | EmptyString => s
      end
  | EmptyString => EmptyString
  end.

(** [strings.TrimSpace]: the string without its leading and trailing white
    space. *)
Definition TrimSpace (s : string) : string :=
  String.rev (TrimLeft true (String.rev (TrimLeft false s))).

(** The line feed that ends a line of output. *)
Definition newline : string := String (Stdlib.Strings.Ascii.ascii_of_nat 10) "".

(** ** The splicer *)

Record splicer := { dir : string }.

(** The command line flags. *)
Record Flags := {
  submitQueueURL : string;
  remoteURL : string;
  orgName : string;
  repoName : string;
  configPath : string;
  maxBatchSize : Z
}.

(** What one iteration of the main loop leaves: the cooldown counter for the
    next iteration, or a run-time panic (a slice bound out of range). *)
Inductive Outcome :=
| Next (cooldown : Z)
| Panic.

Section Splice.
Context `{Packages} `{Env}.

(** [call]: run a binary and return its output and success status. *)
Definition call (binary : string) (args : list string) : M (string * option error) :=
  λ st, let '(r, w) := exec_CombinedOutput binary args (world st) in
        (r, {| world := w; trace := trace st ++ [EvExec binary args] |}).

(** [getQueuedPRs]: the numbers of the queued PRs whose base is the default
    branch. *)
Definition queuedNumbers (q : list queue.Entry) : list Z :=
  foldl (λ ret e,
    if bool_decide (queue.BaseRef e = "" ∨ queue.BaseRef e = "master")
    then ret ++ [queue.Number e] else ret) [] q.

Definition getQueuedPRs (url : string) : M (Res (list Z)) :=
  λ st,
    let '(resp, w1) := http_Get url (world st) in
    let st1 := {| world := w1; trace := trace st ++ [EvHttpGet url] |} in
    match resp with
    | Err e => (Err e, st1)
    | Ok resp =>
      let '(body, w2) := ioutil_ReadAll resp w1 in
      let st2 := {| world := w2; trace := trace st1 ++ [EvReadAll] |} in
      match body with
      | Err e => (Err e, st2)
      | Ok body =>
        match json_Unmarshal body with
        | Err e => (Err e, st2)
        | Ok q => (Ok (queuedNumbers q), st2)
        end
      end
    end.

(** [gitCall]: [git -C $dir $args]. *)
Definition gitCall (s : splicer) (args : list string) : M (option error) :=
  '(_, err) ← call "git" (["-C"; dir s] ++ args);
  mret err.

(** [gitCalls]: chain [gitCall]s, returning the first failure. *)
Fixpoint gitCalls (s : splicer) (argsList : list (list string)) : M (option error) :=
  match argsList with
  | [] => mret None
  | args :: rest =>
    err ← gitCall s args;
    match err with
    | Some e => mret (Some e)
    | None => gitCalls s rest
    end
  end.

Definition fetchArgs (remote : string) (prs : list Z) : list string :=
  foldl (λ args pr, args ++ ["pull/" +:+ pretty pr +:+ "/head:pr/" +:+ pretty pr])
        ["fetch"; "-f"; remote; "master:master"] prs.

Definition mergeArgs (pr : Z) : list string :=
  ["merge"; "--no-ff"; "--no-stat"; "-m"; "merge #" +:+ pretty pr; "pr/" +:+ pretty pr].

(** The calls that reset the work tree and fetch the branches. *)
Definition fetchCalls (remote : string) (prs : list Z) : list (list string) :=
  [ ["reset"; "--hard"];
    ["checkout"; "--orphan"; "blank"];
    ["reset"; "--hard"];
    ["clean"; "-fdx"];
    fetchArgs remote prs ].

Definition checkoutBatch : list string := ["checkout"; "-B"; "batch"; "master"].

(** The second loop of [findMergeable]: merge each PR in turn into the
    batch branch; a failed merge is aborted and the PR skipped. *)
Fixpoint mergeLoop (s : splicer) (prs : list Z) (out : list Z) : M (Res (list Z)) :=
  match prs with
  | [] => mret (Ok out)
  | pr :: rest =>
    err ← gitCall s (mergeArgs pr);
    match err with
    | Some _ =>
      err ← gitCall s ["merge"; "--abort"];
      match err with
      | Some e => mret (Err e)
      | None => mergeLoop s rest out
      end
    | None => mergeLoop s rest (out ++ [pr])
    end
  end.

(** [findMergeable]: fetch the PRs, merge them locally, and return those
    that merge without conflicts. *)
Definition findMergeable (s : splicer) (remote : string) (prs : list Z)
  : M (Res (list Z)) :=
  err ← gitCalls s (fetchCalls remote prs ++ [checkoutBatch]);
  match err with
  | Some e => mret (Err e)
  | None => mergeLoop s prs []
  end.

(** [gitRef]: the SHA of a git object, or the empty string. *)
Definition gitRef (s : splicer) (ref : string) : M string :=
  '(output, err) ← call "git" ["-C"; dir s; "rev-parse"; ref];
  match err with
  | Some _ => mret ""
  | None => mret (TrimSpace output)
  end.

Definition prBranch (pr : Z) : string := "pr/" +:+ pretty pr.

Fixpoint pullRefs (s : splicer) (prs : list Z) (pulls : list kube.Pull)
  : M (list kube.Pull) :=
  match prs with
  | [] => mret pulls
  | pr :: rest =>
    sha ← gitRef s (prBranch pr);
    pullRefs s rest (pulls ++ [{| kube.Number := pr; kube.SHA := sha |}])
  end.

(** [makeBuildRefs]: the [Refs] of the given pull requests. *)
Definition makeBuildRefs (s : splicer) (org repo : string) (prs : list Z)
  : M kube.Refs :=
  baseSHA ← gitRef s "master";
  pulls ← pullRefs s prs [];
  mret {| kube.Org := org; kube.Repo := repo; kube.BaseRef := "master";
          kube.BaseSHA := baseSHA; kube.Pulls := pulls |}.

(** The boundary calls of the main loop, as computations. *)
Definition ListProwJobs : M (Res (list kube.ProwJob)) :=
  λ st, let '(r, w) := kc_ListProwJobs (world st) in
        (r, {| world := w; trace := trace st ++ [EvListProwJobs] |}).

Definition CreateProwJob (pj : kube.ProwJob) : M (option error) :=
  λ st, let '(r, w) := kc_CreateProwJob pj (world st) in
        (r, {| world := w; trace := trace st ++ [EvCreateProwJob pj] |}).

(** Reading a missing key of a Go map of slices yields the nil slice. *)
Definition Presubmits (key : string) : M (list config.Presubmit) :=
  λ st, (default [] (ca_Config_Presubmits (world st) !! key), st).

(** The names of the batch jobs that are not complete. *)
Definition runningJobs (currentJobs : list kube.ProwJob) : list string :=
  foldl (λ running job,
    if bool_decide (kube.Type_ (kube.Spec job) ≠ kube.BatchJob) then running
    else if negb (kube.Complete job) then running ++ [kube.Job (kube.Spec job)]
    else running) [] currentJobs.

(** The submission loop: a failure to create a job is logged and the loop
    goes on. *)
Fixpoint submitJobs (jobs : list config.Presubmit) (refs : kube.Refs) : M unit :=
  match jobs with
  | [] => mret tt
  | job :: rest =>
    _ ← CreateProwJob (NewBatchProwJob job refs);
    submitJobs rest refs
  end.

(** The steps of an iteration after [findMergeable] accepted more than one
    PR. *)
Definition startBatch (f : Flags) (s : splicer)
    (currentJobs : list kube.ProwJob) (batchPRs : list Z) : M Outcome :=
  refs ← makeBuildRefs s (orgName f) (repoName f) batchPRs;
  presubmits ← Presubmits (orgName f +:+ "/" +:+ repoName f);
  _ ← submitJobs (neededPresubmits presubmits currentJobs refs) refs;
  mret (Next 5).

(** One iteration of the loop of [main]; every [continue] ends it with the
    cooldown it has at that point. *)
Definition tick (f : Flags) (s : splicer) (cooldown : Z) : M Outcome :=
  r ← ListProwJobs;
  match r with
  | Err _ => mret (Next cooldown)
  | Ok currentJobs =>
    if bool_decide (0 < length (runningJobs currentJobs))%nat then mret (Next cooldown)
    else if bool_decide (0 < cooldown) then mret (Next (cooldown - 1))
    else
      q ← getQueuedPRs (submitQueueURL f);
      match q with
      | Err _ => mret (Next cooldown)
      | Ok queue =>
        if bool_decide (length queue = 0%nat) then mret (Next cooldown)
        else
          b ← findMergeable s (remoteURL f) queue;
          match b with
          | Err _ => mret (Next cooldown)
          | Ok batchPRs =>
            if bool_decide (length batchPRs ≤ 1)%nat then mret (Next cooldown)
            else if bool_decide (maxBatchSize f < Z.of_nat (length batchPRs)) then
              if bool_decide (maxBatchSize f < 0) then mret Panic
              else startBatch f s currentJobs (take (Z.to_nat (maxBatchSize f)) batchPRs)
            else startBatch f s currentJobs batchPRs
          end
      end
  end.

(** What [gitRef] reads in a given world: the SHA a ref resolves to. *)
Definition resolved (s : splicer) (ref : string) (w : World) : string :=
  let '((output, err), _) :=
    exec_CombinedOutput "git" ["-C"; dir s; "rev-parse"; ref] w in
  match err with
  | Some _ => ""
  | None => TrimSpace output
  end.



End Splice.

(** ** A simulated world

    A small executable instance of the boundary: a repository that is a map
    from branch names to commit names, a fixed set of branches whose merge
    conflicts, switches that make [merge --abort] or [rev-parse] fail, a
    submit queue and a job backend that stores what is created. *)

Module Sim.

Record SimWorld := {
  remote : gmap string string;
  branches : gmap string string;
  conflicts : list string;
  abort_fails : bool;
  revparse_fails : bool;
  e2e_queue : list queue.Entry;
  jobs : list kube.ProwJob;
  presubmits : gmap string (list config.Presubmit)
}.

Definition set_branches (w : SimWorld) (b : gmap string string) : SimWorld :=
  {| remote := remote w; branches := b; conflicts := conflicts w;
     abort_fails := abort_fails w; revparse_fails := revparse_fails w;
     e2e_queue := e2e_queue w; jobs := jobs w; presubmits := presubmits w |}.

Definition add_job (w : SimWorld) (pj : kube.ProwJob) : SimWorld :=
  {| remote := remote w; branches := branches w; conflicts := conflicts w;
     abort_fails := abort_fails w; revparse_fails := revparse_fails w;
     e2e_queue := e2e_queue w; jobs := jobs w ++ [pj]; presubmits := presubmits w |}.

Definition LF : string := String (Stdlib.Strings.Ascii.ascii_of_nat 10) "".

Definition failed (w : SimWorld) : (string * option error) * SimWorld :=
  (("fatal", Some "exit status 128"), w).

Definition done_ (w : SimWorld) : (string * option error) * SimWorld :=
  (("", None), w).

Definition git_merge (b : string) (w : SimWorld) : (string * option error) * SimWorld :=
  match branches w !! b, branches w !! "batch" with
  | Some sha, Some head =>
    if bool_decide (b ∈ conflicts w) then (("CONFLICT", Some "exit status 1"), w)
    else done_ (set_branches w (<["batch" := "merge(" +:+ head +:+ "," +:+ sha +:+ ")"]> (branches w)))
  | _, _ => failed w
  end.

Definition git_checkout (args : list string) (w : SimWorld)
  : (string * option error) * SimWorld :=
  match args with
  | [opt; b; from] =>
    if bool_decide (opt = "-B") then
      match branches w !! from with
      | Some sha => done_ (set_branches w (<[b := sha]> (branches w)))
      | None => failed w
      end
    else failed w
  | [opt; _] => if bool_decide (opt = "--orphan") then done_ w else failed w
  | _ => failed w
  end.

Definition git (args : list string) (w : SimWorld) : (string * option error) * SimWorld :=
  match args with
  | cmd :: rest =>
    if bool_decide (cmd = "reset") then done_ w
    else if bool_decide (cmd = "clean") then done_ w
    else if bool_decide (cmd = "fetch") then done_ (set_branches w (remote w ∪ branches w))
    else if bool_decide (cmd = "checkout") then git_checkout rest w
    else if bool_decide (cmd = "merge") then
      match rest with
      | [opt] => if bool_decide (opt = "--abort")
                 then (if abort_fails w then failed w else done_ w)
                 else failed w
      | [_; _; _; _; b] => git_merge b w
      | _ => failed w
      end
    else if bool_decide (cmd = "rev-parse") then
      match rest with
      | [ref] =>
        if revparse_fails w then failed w
        else match branches w !! ref with
             | Some sha => ((sha +:+ LF, None), w)
             | None => failed w
             end
      | _ => failed w
      end
    else failed w
  | [] => failed w
  end.

Definition exec (binary : string) (args : list string) (w : SimWorld)
  : (string * option error) * SimWorld :=
  if bool_decide (binary = "git") then
    match args with
    | _ :: _ :: rest => git rest w
    | _ => failed w
    end
  else failed w.

#[local] Instance env : Env := {|
  World := SimWorld;
  Response := list queue.Entry;
  Body := list queue.Entry;
  exec_CombinedOutput := exec;
  http_Get := λ _ w, (Ok (e2e_queue w), w);
  ioutil_ReadAll := λ resp w, (Ok resp, w);
  json_Unmarshal := λ body, Ok body;
  kc_ListProwJobs := λ w, (Ok (jobs w), w);
  kc_CreateProwJob := λ pj w, (None, add_job w pj);
  ca_Config_Presubmits := presubmits
|}.

Definition Pull_String (p : kube.Pull) : string :=
  pretty (kube.Number p) +:+ ":" +:+ kube.SHA p.

Fixpoint join (sep : string) (l : list string) : string :=
  match l with
  | [] => ""
  | [x] => x
  | x :: l' => x +:+ sep +:+ join sep l'
  end.

Definition String_ (r : kube.Refs) : string :=
  join "," ((kube.BaseRef r +:+ ":" +:+ kube.BaseSHA r) :: (Pull_String <$> kube.Pulls r)).

Definition BatchJob (job : config.Presubmit) (refs : kube.Refs) : kube.ProwJob :=
  {| kube.Spec := {| kube.Type_ := kube.BatchJob; kube.Job := config.Name job;
                     kube.Refs_ := refs; kube.Context := config.Context job |};
     kube.Status := {| kube.State := kube.TriggeredState; kube.Completed := false |} |}.

#[local] Instance packages : Packages := {|
  Refs_String := String_;
  NewBatchProwJob := BatchJob
|}.

(** A repository whose remote has three pull requests, of which #102
    conflicts. *)
Definition w0 : SimWorld := {|
  remote := {[ "master" := "m0"; "pr/101" := "a1"; "pr/102" := "b2"; "pr/103" := "c3" ]};
  branches := ∅;
  conflicts := ["pr/102"];
  abort_fails := false;
  revparse_fails := false;
  e2e_queue := [ {| queue.Number := 101; queue.BaseRef := "" |};
                 {| queue.Number := 102; queue.BaseRef := "master" |};
                 {| queue.Number := 7; queue.BaseRef := "release-1.5" |};
                 {| queue.Number := 103; queue.BaseRef := "master" |} ];
  jobs := [];
  presubmits := {[ "kubernetes/kubernetes" :=
    [ {| config.Name := "unit"; config.Context := "A";
         config.AlwaysRun := true; config.SkipReport := false |};
      {| config.Name := "manual"; config.Context := "M";
         config.AlwaysRun := false; config.SkipReport := false |};
      {| config.Name := "e2e"; config.Context := "B";
         config.AlwaysRun := true; config.SkipReport := false |} ] ]}
|}.

Definition st0 : St := {| world := w0; trace := [] |}.

Definition sp : splicer := {| dir := "/tmp/splice_1" |}.

Definition flags : Flags := {|
  submitQueueURL := "http://submit-queue.k8s.io/github-e2e-queue";
  remoteURL := "https://github.com/kubernetes/kubernetes";
  orgName := "kubernetes";
  repoName := "kubernetes";
  configPath := "/etc/config/config";
  maxBatchSize := 5
|}.

(** The same repository when [merge --abort] fails, when [rev-parse]
    fails, when #103 conflicts as well, and when the backend holds jobs. *)
Definition with_switches (w : SimWorld) (abort revparse : bool) : SimWorld :=
  {| remote := remote w; branches := branches w; conflicts := conflicts w;
     abort_fails := abort; revparse_fails := revparse;
     e2e_queue := e2e_queue w; jobs := jobs w; presubmits := presubmits w |}.

Definition with_conflicts (w : SimWorld) (c : list string) : SimWorld :=
  {| remote := remote w; branches := branches w; conflicts := c;
     abort_fails := abort_fails w; revparse_fails := revparse_fails w;
     e2e_queue := e2e_queue w; jobs := jobs w; presubmits := presubmits w |}.

Definition with_jobs (w : SimWorld) (js : list kube.ProwJob) : SimWorld :=
  {| remote := remote w; branches := branches w; conflicts := conflicts w;
     abort_fails := abort_fails w; revparse_fails := revparse_fails w;
     e2e_queue := e2e_queue w; jobs := js; presubmits := presubmits w |}.

Definition st_abort_fails : St :=
  {| world := with_switches w0 true false; trace := [] |}.

Definition st_revparse_fails : St :=
  {| world := with_switches w0 false true; trace := [] |}.

Definition st_one_mergeable : St :=
  {| world := with_conflicts w0 ["pr/102"; "pr/103"]; trace := [] |}.

Definition refs0 : kube.Refs :=
  {| kube.Org := "kubernetes"; kube.Repo := "kubernetes";
     kube.BaseRef := "master"; kube.BaseSHA := "m0";
     kube.Pulls := [ {| kube.Number := 101; kube.SHA := "a1" |};
                     {| kube.Number := 103; kube.SHA := "c3" |} ] |}.

(** The same batch with another head for #103. *)
Definition refs1 : kube.Refs :=
  {| kube.Org := "kubernetes"; kube.Repo := "kubernetes";
     kube.BaseRef := "master"; kube.BaseSHA := "m0";
     kube.Pulls := [ {| kube.Number := 101; kube.SHA := "a1" |};
                     {| kube.Number := 103; kube.SHA := "c4" |} ] |}.

Definition job_of (t : kube.ProwJobType) (ctx : string) (refs : kube.Refs)
    (state : kube.ProwJobState) (complete : bool) : kube.ProwJob :=
  {| kube.Spec := {| kube.Type_ := t; kube.Job := "job-" +:+ ctx;
                     kube.Refs_ := refs; kube.Context := ctx |};
     kube.Status := {| kube.State := state; kube.Completed := complete |} |}.

Definition st_batch_running : St :=
  {| world := with_jobs w0
       [ job_of kube.PresubmitJob "A" refs0 kube.PendingState false;
         job_of kube.BatchJob "A" refs0 kube.SuccessState true;
         job_of kube.BatchJob "B" refs0 kube.PendingState false ];
     trace := [] |}.

Definition config0 : list config.Presubmit :=
  default [] (presubmits w0 !! "kubernetes/kubernetes").

Definition remote_url : string := "https://github.com/kubernetes/kubernetes".

Definition prs0 : list Z := [101; 102; 103].

(** The state in which the merge loop of [findMergeable] starts. *)
Definition ready (st : St) : St :=
  snd (gitCalls sp (fetchCalls remote_url prs0 ++ [checkoutBatch]) st).

(** The descriptor of the batch when no ref resolves. *)
Definition refs_blank : kube.Refs :=
  {| kube.Org := "kubernetes"; kube.Repo := "kubernetes";
     kube.BaseRef := "master"; kube.BaseSHA := "";
     kube.Pulls := [ {| kube.Number := 101; kube.SHA := "" |};
                     {| kube.Number := 103; kube.SHA := "" |} ] |}.

(** Further flags and states: a batch size of one, a negative batch size,
    an empty queue, a queue of other base branches only, and a remote
    without the base branch. *)
Definition with_batch_size (f : Flags) (n : Z) : Flags :=
  {| submitQueueURL := submitQueueURL f; remoteURL := remoteURL f;
     orgName := orgName f; repoName := repoName f; configPath := configPath f;
     maxBatchSize := n |}.

Definition with_queue (w : SimWorld) (q : list queue.Entry) : SimWorld :=
  {| remote := remote w; branches := branches w; conflicts := conflicts w;
     abort_fails := abort_fails w; revparse_fails := revparse_fails w;
     e2e_queue := q; jobs := jobs w; presubmits := presubmits w |}.

Definition with_remote (w : SimWorld) (r : gmap string string) : SimWorld :=
  {| remote := r; branches := branches w; conflicts := conflicts w;
     abort_fails := abort_fails w; revparse_fails := revparse_fails w;
     e2e_queue := e2e_queue w; jobs := jobs w; presubmits := presubmits w |}.

Definition st_empty_queue : St :=
  {| world := with_queue w0 [ {| queue.Number := 7; queue.BaseRef := "release-1.5" |} ];
     trace := [] |}.

Definition st_no_conflict : St :=
  {| world := with_conflicts w0 []; trace := [] |}.

Definition st_no_master : St :=
  {| world := with_remote w0 {[ "pr/101" := "a1"; "pr/102" := "b2"; "pr/103" := "c3" ]};
     trace := [] |}.

End Sim.

(** ** The loop of [main] *)

Section Loop.
Context `{Packages} `{Env}.

(** The first [n] iterations of the loop of [main].  The cooldown is the
    only variable an iteration hands to the next one; a panic ends the
    process. *)
Fixpoint ticks (n : nat) (f : Flags) (s : splicer) (cooldown : Z) : M Outcome :=
  match n with
  | O => mret (Next cooldown)
  | S n' =>
    o ← tick f s cooldown;
    match o with
    | Next cooldown' => ticks n' f s cooldown'
    | Panic => mret Panic
    end
  end.

(** The event a [gitCall] leaves in the trace. *)
Definition gitEvent (s : splicer) (args : list string) : Event :=
  EvExec "git" ("-C" :: dir s :: args).

End Loop.

(** ** What the splicer relies on git for *)

Section Git.
Context `{Env}.



End Git.

(** ** A simulated repository with a checked-out branch

    A second executable instance of the boundary, closer to git: a fetch
    reads its refspecs and refuses to write the branch that is checked out,
    [checkout --orphan] and [checkout -B] move the checked-out branch, and
    a merge moves the branch that is checked out, whichever it is. *)

Module Repo.

Record RepoWorld := {
  remote_refs : gmap string string;
  branches : gmap string string;
  head : string;
  conflicts : list string
}.

Definition update (w : RepoWorld) (b : gmap string string) (h : string) : RepoWorld :=
  {| remote_refs := remote_refs w; branches := b; head := h; conflicts := conflicts w |}.

Definition failed (w : RepoWorld) : (string * option error) * RepoWorld :=
  (("fatal", Some "exit status 128"), w).

Definition done_ (w : RepoWorld) : (string * option error) * RepoWorld :=
  (("", None), w).

Definition colon : Stdlib.Strings.Ascii.ascii := Stdlib.Strings.Ascii.ascii_of_nat 58.

(** A refspec [src:dst], split at its first colon. *)
Fixpoint split_colon (spec : string) : option (string * string) :=
  match spec with
  | EmptyString => None
  | String a rest =>
    if decide (a = colon) then Some (EmptyString, rest)
    else (λ sd, (String a sd.1, sd.2)) <$> split_colon rest
  end.


(** The branches a fetch writes: each refspec names a ref of the remote;
    two refspecs that write different commits to one branch are refused. *)
Fixpoint fetch_specs (remote : gmap string string) (specs : list string)
    (new : gmap string string) : option (gmap string string) :=
  match specs with
  | [] => Some new
  | spec :: rest =>
    match split_colon spec with
    | None => None
    | Some (src, dst) =>
      match remote !! src with
      | None => None
      | Some sha =>
        match new !! dst with
        | None => fetch_specs remote rest (<[dst := sha]> new)
        | Some sha' => if decide (sha' = sha) then fetch_specs remote rest new else None
        end
      end
    end
  end.

Definition git_fetch_ (specs : list string) (w : RepoWorld)
  : (string * option error) * RepoWorld :=
  match fetch_specs (remote_refs w) specs ∅ with
  | Some new =>
    match new !! head w with
    | Some _ => failed w
    | None => done_ (update w (new ∪ branches w) (head w))
    end
  | None => failed w
  end.

Definition git_checkout_ (args : list string) (w : RepoWorld)
  : (string * option error) * RepoWorld :=
  match args with
  | [opt; b] =>
    if bool_decide (opt = "--orphan") then
      match branches w !! b with
      | Some _ => failed w
      | None => done_ (update w (branches w) b)
      end
    else failed w
  | [opt; b; from] =>
    if bool_decide (opt = "-B") then
      match branches w !! from with
      | Some sha => done_ (update w (<[b := sha]> (branches w)) b)
      | None => failed w
      end
    else failed w
  | _ => failed w
  end.

Definition git_merge_ (args : list string) (w : RepoWorld)
  : (string * option error) * RepoWorld :=
  match args with
  | [opt] => if bool_decide (opt = "--abort") then done_ w else failed w
  | [_; _; _; _; b] =>
    match branches w !! b, branches w !! head w with
    | Some sha, Some h =>
      if bool_decide (b ∈ conflicts w) then (("CONFLICT", Some "exit status 1"), w)
      else done_ (update w (<[head w := "merge(" +:+ h +:+ "," +:+ sha +:+ ")"]> (branches w))
                         (head w))
    | _, _ => failed w
    end
  | _ => failed w
  end.

Definition git_rev_parse_ (args : list string) (w : RepoWorld)
  : (string * option error) * RepoWorld :=
  match args with
  | [ref] =>
    match branches w !! ref with
    | Some sha => ((sha +:+ newline, None), w)
    | None => failed w
    end
  | _ => failed w
  end.

Definition git (args : list string) (w : RepoWorld) : (string * option error) * RepoWorld :=
  match args with
  | cmd :: rest =>
    if bool_decide (cmd = "reset") then done_ w
    else if bool_decide (cmd = "clean") then done_ w
    else if bool_decide (cmd = "fetch") then
      match rest with
      | _ :: _ :: specs => git_fetch_ specs w
      | _ => failed w
      end
    else if bool_decide (cmd = "checkout") then git_checkout_ rest w
    else if bool_decide (cmd = "merge") then git_merge_ rest w
    else if bool_decide (cmd = "rev-parse") then git_rev_parse_ rest w
    else failed w
  | [] => failed w
  end.

Definition exec (binary : string) (args : list string) (w : RepoWorld)
  : (string * option error) * RepoWorld :=
  if bool_decide (binary = "git") then
    match args with
    | _ :: _ :: rest => git rest w
    | _ => failed w
    end
  else failed w.

(** The queue, the job backend and the configuration are empty. *)
#[local] Instance env : Env := {|
  World := RepoWorld;
  Response := unit;
  Body := unit;
  exec_CombinedOutput := exec;
  http_Get := λ _ w, (Ok tt, w);
  ioutil_ReadAll := λ _ w, (Ok tt, w);
  json_Unmarshal := λ _, Ok [];
  kc_ListProwJobs := λ w, (Ok [], w);
  kc_CreateProwJob := λ _ w, (None, w);
  ca_Config_Presubmits := λ _, ∅
|}.


Definition sp : splicer := {| dir := "/tmp/splice_2" |}.

(** A remote with three pull requests, of which #102 conflicts, seen from a
    repository left by an earlier iteration: [batch] is checked out and
    [pr/101] still points to an older head of #101. *)
Definition w0 : RepoWorld := {|
  remote_refs := {[ "master" := "m1"; "pull/101/head" := "a1";
                    "pull/102/head" := "b2"; "pull/103/head" := "c3" ]};
  branches := {[ "master" := "m0"; "batch" := "merge(m0,a0)"; "pr/101" := "a0" ]};
  head := "batch";
  conflicts := ["pr/102"]
|}.

Definition st0 : St := {| world := w0; trace := [] |}.

End Repo.

(** ** Loops that append are filters *)

Section Loops.
Context {A : Type}.

(** A [for ... range] loop that appends the elements passing a test
    computes a filter, after whatever the accumulator held. *)
Lemma foldl_snoc_filter (P : A → Prop) `{!∀ x, Decision (P x)}
    (f : list A → A → list A) (l acc : list A) :
  (∀ out x, f out x = if decide (P x) then out ++ [x] else out) →
  foldl f acc l = acc ++ filter P l.
Proof.
  intros Hf. revert acc.
  induction l as [|x l IH]; intros acc; simpl.
  - by rewrite app_nil_r.
  - rewrite IH, Hf, filter_cons.
    destruct (decide (P x)); [by rewrite <- app_assoc | done].
Qed.

Lemma foldl_snoc_map_filter {B : Type} (P : A → Prop) `{!∀ x, Decision (P x)}
    (g : A → B) (f : list B → A → list B) (l : list A) (acc : list B) :
  (∀ out x, f out x = if decide (P x) then out ++ [g x] else out) →
  foldl f acc l = acc ++ (g <$> filter P l).
Proof.
  intros Hf. revert acc.
  induction l as [|x l IH]; intros acc; simpl.
  - by rewrite app_nil_r.
  - rewrite IH, Hf, filter_cons.
    destruct (decide (P x)); [by rewrite <- app_assoc | done].
Qed.

End Loops.

(** ** The job reconciler *)

Section ReconcilerFacts.
Context `{Packages}.

Lemma completedJobs_filter currentJobs refs :
  completedJobs currentJobs refs = filter (passed refs) currentJobs.
Proof.
  unfold completedJobs.
  rewrite (foldl_snoc_filter (passed refs)); [done|].
  intros out job. rewrite !bool_decide_not.
  case_decide as Hp; unfold passed in Hp;
    destruct (kube.Complete job); simpl;
    repeat case_bool_decide; simpl; try done; exfalso; intuition congruence.
Qed.

Lemma requiredPresubmits_filter presubmits :
  requiredPresubmits presubmits = filter required presubmits.
Proof.
  unfold requiredPresubmits.
  rewrite (foldl_snoc_filter required); [done|].
  intros out job.
  case_decide as Hr; unfold required in Hr;
    destruct (config.AlwaysRun job), (config.SkipReport job); simpl;
    try done; exfalso; intuition congruence.
Qed.

(** The map built by [neededPresubmits] answers [true] exactly on the
    contexts of the jobs it was built from. *)
Lemma map_get_skippable_of jobs ctx :
  map_get (skippable_of jobs) ctx = true ↔
  ctx ∈ (λ job, kube.Context (kube.Spec job)) <$> jobs.
Proof.
  unfold skippable_of.
  assert (∀ (m : gmap string bool),
    map_get (foldl (λ skippable job,
                      <[kube.Context (kube.Spec job) := true]> skippable) m jobs) ctx = true
    ↔ map_get m ctx = true ∨ ctx ∈ (λ job, kube.Context (kube.Spec job)) <$> jobs) as Hgen.
  { induction jobs as [|job jobs IH]; intros m; simpl.
    - rewrite elem_of_nil. tauto.
    - rewrite IH, elem_of_cons. unfold map_get.
      destruct (decide (kube.Context (kube.Spec job) = ctx)) as [->|Hne].
      + rewrite lookup_insert_eq. simpl. intuition auto.
      + rewrite lookup_insert_ne by done. intuition congruence. }
  rewrite Hgen. unfold map_get. rewrite lookup_empty. simpl.
  intuition discriminate.
Qed.

Lemma neededPresubmits_filter presubmits currentJobs refs :
  neededPresubmits presubmits currentJobs refs =
  filter (pending currentJobs refs) (filter required presubmits).
Proof.
  unfold neededPresubmits.
  rewrite (foldl_snoc_filter (pending currentJobs refs)).
  - by rewrite requiredPresubmits_filter.
  - intros out job. unfold pending.
    destruct (map_get _ _) eqn:Hget.
    + apply map_get_skippable_of in Hget. by rewrite decide_False by tauto.
    + rewrite decide_True; [done|].
      intros Hin. apply map_get_skippable_of in Hin. congruence.
Qed.

(** C3. A job is in the output of [completedJobs] if and only if it is one
    of the current jobs, its type is batch, it is complete, its state is
    success, and the canonical string form of its refs equals that of the
    descriptor. *)
Theorem completedJobs_spec (currentJobs : list kube.ProwJob) (refs : kube.Refs)
    (job : kube.ProwJob) :
  job ∈ completedJobs currentJobs refs ↔
  job ∈ currentJobs ∧
  kube.Type_ (kube.Spec job) = kube.BatchJob ∧
  kube.Complete job = true ∧
  kube.State (kube.Status job) = kube.SuccessState ∧
  Refs_String (kube.Refs_ (kube.Spec job)) = Refs_String refs.
Proof.
  rewrite completedJobs_filter, list_elem_of_filter. unfold passed. tauto.
Qed.

(** A job whose refs have another canonical string form than the
    descriptor is invisible to [completedJobs]. *)
Lemma completedJobs_other_refs jobs1 job jobs2 refs :
  Refs_String (kube.Refs_ (kube.Spec job)) ≠ Refs_String refs →
  completedJobs (jobs1 ++ job :: jobs2) refs = completedJobs (jobs1 ++ jobs2) refs.
Proof.
  intros Hne. rewrite !completedJobs_filter, !filter_app, filter_cons.
  rewrite decide_False; [done|]. unfold passed. tauto.
Qed.

(** C2. [neededPresubmits] returns exactly the presubmits with
    [AlwaysRun = true] and [SkipReport = false] whose context is not the
    context of any job in [completedJobs] for the descriptor, in the order of
    the configuration; and a job recorded for refs whose canonical string
    form differs from the descriptor's removes nothing: with or without it
    the needed presubmits are the same. *)
Theorem neededPresubmits_spec (presubmits : list config.Presubmit) (refs : kube.Refs) :
  (∀ currentJobs,
     neededPresubmits presubmits currentJobs refs =
     filter (λ job, config.AlwaysRun job = true ∧ config.SkipReport job = false ∧
                    config.Context job ∉
                      (λ j, kube.Context (kube.Spec j)) <$> completedJobs currentJobs refs)
            presubmits) ∧
  (∀ jobs1 prior jobs2,
     Refs_String (kube.Refs_ (kube.Spec prior)) ≠ Refs_String refs →
     neededPresubmits presubmits (jobs1 ++ prior :: jobs2) refs =
     neededPresubmits presubmits (jobs1 ++ jobs2) refs).
Proof.
  split.
  - intros currentJobs. rewrite neededPresubmits_filter, list_filter_filter.
    apply list_filter_iff. intros job. unfold pending, required. tauto.
  - intros jobs1 prior jobs2 Hne.
    unfold neededPresubmits. by rewrite completedJobs_other_refs.
Qed.

(** C10. The list returned by [neededPresubmits] is a subsequence of the
    configured presubmits: every returned presubmit occurs in the input and
    the returned ones keep the relative order of the configuration. *)
Theorem neededPresubmits_sublist (presubmits : list config.Presubmit)
    (currentJobs : list kube.ProwJob) (refs : kube.Refs) :
  neededPresubmits presubmits currentJobs refs `sublist_of` presubmits ∧
  neededPresubmits presubmits currentJobs refs ⊆ presubmits.
Proof.
  assert (neededPresubmits presubmits currentJobs refs `sublist_of` presubmits) as Hsub.
  { rewrite neededPresubmits_filter.
    etrans; apply sublist_filter. }
  split; [done | by apply sublist_subseteq].
Qed.

End ReconcilerFacts.

(** ** The splicer and the main loop *)

Section SpliceFacts.
Context `{Packages} `{Env}.

Lemma bind_run {A B : Type} (m : M A) (k : A → M B) (st : St) :
  (m ≫= k) st = let '(a, st') := m st in k a st'.
Proof. reflexivity. Qed.

(** A run is determined by its result and the state it leaves. *)
Lemma run_result {A : Type} (r : A * St) (a : A) : fst r = a → r = (a, snd r).
Proof. destruct r. simpl. by intros ->. Qed.

(** A [gitCall] is one subprocess: its error is the error of the
    subprocess, and the trace grows by that one event. *)
Lemma gitCall_run (s : splicer) (args : list string) (st : St) :
  gitCall s args st =
  (snd (fst (exec_CombinedOutput "git" ("-C" :: dir s :: args) (world st))),
   {| world := snd (exec_CombinedOutput "git" ("-C" :: dir s :: args) (world st));
      trace := trace st ++ [EvExec "git" ("-C" :: dir s :: args)] |}).
Proof.
  unfold gitCall, call. rewrite bind_run. simpl.
  by destruct (exec_CombinedOutput _ _ _) as [[output err] w].
Qed.

Lemma gitRef_run (s : splicer) (ref : string) (st : St) :
  gitRef s ref st =
  (resolved s ref (world st),
   {| world := snd (exec_CombinedOutput "git" ["-C"; dir s; "rev-parse"; ref] (world st));
      trace := trace st ++ [EvExec "git" ["-C"; dir s; "rev-parse"; ref]] |}).
Proof.
  unfold gitRef, call, resolved. rewrite bind_run.
  by destruct (exec_CombinedOutput _ _ _) as [[output [e|]] w].
Qed.

Lemma gitCalls_app (s : splicer) (l1 l2 : list (list string)) (st : St) :
  gitCalls s (l1 ++ l2) st =
  match gitCalls s l1 st with
  | (Some e, st1) => (Some e, st1)
  | (None, st1) => gitCalls s l2 st1
  end.
Proof.
  revert st. induction l1 as [|args l1 IH]; intros st; simpl; [done|].
  rewrite !bind_run. destruct (gitCall s args st) as [[e|] st1]; [done|].
  apply IH.
Qed.

(** The merge loop runs over a prefix of the candidates and then over the
    rest, from the accepted list and the state the prefix leaves. *)
Lemma mergeLoop_app (s : splicer) (l1 l2 : list Z) (out : list Z) (st : St) :
  mergeLoop s (l1 ++ l2) out st =
  match mergeLoop s l1 out st with
  | (Ok out1, st1) => mergeLoop s l2 out1 st1
  | (Err e, st1) => (Err e, st1)
  end.
Proof.
  revert out st. induction l1 as [|pr l1 IH]; intros out st; simpl; [done|].
  rewrite !bind_run. destruct (gitCall s (mergeArgs pr) st) as [[e|] st1].
  - rewrite !bind_run.
    destruct (gitCall s ["merge"; "--abort"] st1) as [[e'|] st2]; [done|].
    apply IH.
  - apply IH.
Qed.

(** What the merge loop returns extends the accepted list it started from
    by a subsequence of the candidates. *)
Lemma mergeLoop_sublist (s : splicer) (prs out res : list Z) (st st' : St) :
  mergeLoop s prs out st = (Ok res, st') →
  ∃ acc, res = out ++ acc ∧ acc `sublist_of` prs.
Proof.
  revert out st. induction prs as [|pr prs IH]; intros out st; simpl.
  - intros [= <- <-]. exists []. by rewrite app_nil_r.
  - rewrite bind_run. destruct (gitCall s (mergeArgs pr) st) as [[e|] st1].
    + rewrite bind_run.
      destruct (gitCall s ["merge"; "--abort"] st1) as [[e'|] st2]; [done|].
      intros (acc & -> & Hsub)%IH. exists acc. split; [done|].
      by apply sublist_cons.
    + intros (acc & -> & Hsub)%IH. exists (pr :: acc).
      split; [by rewrite <- app_assoc | by apply sublist_skip].
Qed.

(** C1. Whenever [findMergeable] returns a list, it is a subsequence of the
    candidates: a subset of them in their relative order, of a length
    between 0 and the number of candidates. *)
Theorem findMergeable_sublist (s : splicer) (remote : string) (prs out : list Z)
    (st st' : St) :
  findMergeable s remote prs st = (Ok out, st') →
  out `sublist_of` prs ∧ out ⊆ prs ∧ (0 ≤ length out ≤ length prs)%nat.
Proof.
  unfold findMergeable. rewrite bind_run.
  destruct (gitCalls s _ st) as [[e|] st1]; [done|].
  intros (acc & -> & Hsub)%mergeLoop_sublist. simpl.
  split; [done|]. split; [by apply sublist_subseteq|].
  split; [lia | by apply sublist_length].
Qed.

(** C4, as the code has it. When the merge of a candidate fails after the
    candidates before it were processed, and the [merge --abort] that
    follows succeeds, the loop goes on with the next candidate from the
    list accepted so far: the candidate is left out and nothing else is.
    When the [merge --abort] fails too, the loop returns that error. *)
Theorem conflict_excludes_candidate (s : splicer) (before : list Z) (pr : Z)
    (after out out1 : list Z) (st st1 st2 st3 : St) (e : error) (r : option error) :
  mergeLoop s before out st = (Ok out1, st1) →
  gitCall s (mergeArgs pr) st1 = (Some e, st2) →
  gitCall s ["merge"; "--abort"] st2 = (r, st3) →
  mergeLoop s (before ++ pr :: after) out st =
  match r with
  | None => mergeLoop s after out1 st3
  | Some e' => (Err e', st3)
  end.
Proof.
  intros Hbefore Hmerge Habort.
  rewrite mergeLoop_app, Hbefore. simpl.
  rewrite bind_run, Hmerge, bind_run, Habort. by destruct r.
Qed.

(** *** The submit queue *)

Lemma queuedNumbers_filter (q : list queue.Entry) :
  queuedNumbers q =
  queue.Number <$> filter (λ e, queue.BaseRef e = "" ∨ queue.BaseRef e = "master") q.
Proof.
  unfold queuedNumbers.
  rewrite (foldl_snoc_map_filter
             (λ e, queue.BaseRef e = "" ∨ queue.BaseRef e = "master") queue.Number);
    [done|].
  intros out e. by rewrite decide_bool_decide.
Qed.

(** C8. When the queue response is received and decoded, [getQueuedPRs]
    returns the numbers of exactly the entries whose [BaseRef] is the empty
    string or [master], in the order of the response. *)
Theorem getQueuedPRs_spec (url : string) (st : St) (resp : Response) (w1 w2 : World)
    (body : Body) (q : list queue.Entry) :
  http_Get url (world st) = (Ok resp, w1) →
  ioutil_ReadAll resp w1 = (Ok body, w2) →
  json_Unmarshal body = Ok q →
  fst (getQueuedPRs url st) =
  Ok (queue.Number <$>
        filter (λ e, queue.BaseRef e = "" ∨ queue.BaseRef e = "master") q).
Proof.
  intros Hget Hread Hjson. unfold getQueuedPRs.
  rewrite Hget, Hread, Hjson. simpl. by rewrite queuedNumbers_filter.
Qed.

(** *** Which boundary calls create jobs *)

Lemma created_app (tr1 tr2 : list Event) :
  created (tr1 ++ tr2) = created tr1 ++ created tr2.
Proof. apply omap_app. Qed.

Lemma gitCall_created (s : splicer) (args : list string) (st : St) :
  created (trace (snd (gitCall s args st))) = created (trace st).
Proof. rewrite gitCall_run. simpl. rewrite created_app. simpl. apply app_nil_r. Qed.

Lemma gitCalls_created (s : splicer) (l : list (list string)) (st : St) :
  created (trace (snd (gitCalls s l st))) = created (trace st).
Proof.
  revert st. induction l as [|args l IH]; intros st; simpl; [done|].
  rewrite bind_run. pose proof (gitCall_created s args st) as Hc.
  destruct (gitCall s args st) as [[e|] st1]; simpl in *; [done|].
  by rewrite IH.
Qed.

Lemma mergeLoop_created (s : splicer) (prs out : list Z) (st : St) :
  created (trace (snd (mergeLoop s prs out st))) = created (trace st).
Proof.
  revert out st. induction prs as [|pr prs IH]; intros out st; simpl; [done|].
  rewrite bind_run. pose proof (gitCall_created s (mergeArgs pr) st) as Hc.
  destruct (gitCall s (mergeArgs pr) st) as [[e|] st1]; simpl in *.
  - rewrite bind_run.
    pose proof (gitCall_created s ["merge"; "--abort"] st1) as Hc'.
    destruct (gitCall s ["merge"; "--abort"] st1) as [[e'|] st2]; simpl in *.
    + congruence.
    + rewrite IH. congruence.
  - by rewrite IH.
Qed.

Lemma findMergeable_created (s : splicer) (remote : string) (prs : list Z) (st : St) :
  created (trace (snd (findMergeable s remote prs st))) = created (trace st).
Proof.
  unfold findMergeable. rewrite bind_run.
  pose proof (gitCalls_created s (fetchCalls remote prs ++ [checkoutBatch]) st) as Hc.
  destruct (gitCalls s _ st) as [[e|] st1]; simpl in *; [done|].
  by rewrite mergeLoop_created.
Qed.

Lemma getQueuedPRs_created (url : string) (st : St) :
  created (trace (snd (getQueuedPRs url st))) = created (trace st).
Proof.
  unfold getQueuedPRs.
  destruct (http_Get url (world st)) as [[resp|e] w1]; simpl.
  - destruct (ioutil_ReadAll resp w1) as [[body|e] w2]; simpl.
    + destruct (json_Unmarshal body); simpl;
        rewrite !created_app; simpl; by rewrite !app_nil_r.
    + rewrite !created_app. simpl. by rewrite !app_nil_r.
  - rewrite created_app. simpl. by rewrite app_nil_r.
Qed.

(** *** One iteration of the main loop *)

Lemma runningJobs_filter (currentJobs : list kube.ProwJob) :
  runningJobs currentJobs =
  (λ job, kube.Job (kube.Spec job)) <$>
    filter (λ job, kube.Type_ (kube.Spec job) = kube.BatchJob ∧
                   kube.Complete job = false) currentJobs.
Proof.
  unfold runningJobs.
  rewrite (foldl_snoc_map_filter
             (λ job, kube.Type_ (kube.Spec job) = kube.BatchJob ∧
                     kube.Complete job = false)
             (λ job, kube.Job (kube.Spec job))); [done|].
  intros out job. rewrite bool_decide_not.
  case_decide as Hr; destruct (kube.Complete job); simpl;
    case_bool_decide; simpl; try done; exfalso; intuition congruence.
Qed.

(** C7. In an iteration that finds a batch job that is not complete, the
    only boundary call is the listing of the jobs: no queue request, no git
    call, no job creation, and the cooldown is left as it is. *)
Theorem tick_single_flight (f : Flags) (s : splicer) (cooldown : Z) (st : St)
    (currentJobs : list kube.ProwJob) (w1 : World) (job : kube.ProwJob) :
  kc_ListProwJobs (world st) = (Ok currentJobs, w1) →
  job ∈ currentJobs →
  kube.Type_ (kube.Spec job) = kube.BatchJob →
  kube.Complete job = false →
  tick f s cooldown st =
  (Next cooldown, {| world := w1; trace := trace st ++ [EvListProwJobs] |}).
Proof.
  intros Hlist Hin Htype Hcomplete.
  unfold tick, ListProwJobs. rewrite bind_run, Hlist.
  rewrite bool_decide_eq_true_2; [done|].
  rewrite runningJobs_filter, length_fmap.
  assert (job ∈ filter (λ job, kube.Type_ (kube.Spec job) = kube.BatchJob ∧
                               kube.Complete job = false) currentJobs) as Hf
    by (by apply list_elem_of_filter).
  destruct (filter _ currentJobs); [by apply elem_of_nil in Hf | simpl; lia].
Qed.

(** C9. In an iteration in which [findMergeable] is reached and accepts at
    most one PR, the iteration ends there: no job is created and the
    cooldown is left as it is. *)
Theorem tick_no_single_batch (f : Flags) (s : splicer) (cooldown : Z)
    (st st1 st2 st3 : St) (currentJobs : list kube.ProwJob) (queue batchPRs : list Z) :
  ListProwJobs st = (Ok currentJobs, st1) →
  runningJobs currentJobs = [] →
  cooldown ≤ 0 →
  getQueuedPRs (submitQueueURL f) st1 = (Ok queue, st2) →
  queue ≠ [] →
  findMergeable s (remoteURL f) queue st2 = (Ok batchPRs, st3) →
  (length batchPRs ≤ 1)%nat →
  tick f s cooldown st = (Next cooldown, st3) ∧
  created (trace st3) = created (trace st).
Proof.
  intros Hlist Hrun Hcool Hqueue Hne Hmerge Hlen. split.
  - unfold tick. rewrite bind_run, Hlist, Hrun. simpl.
    rewrite (bool_decide_eq_false_2 (0 < cooldown)) by lia.
    rewrite bind_run, Hqueue.
    rewrite bool_decide_eq_false_2 by (by destruct queue).
    rewrite bind_run, Hmerge.
    by rewrite bool_decide_eq_true_2.
  - pose proof (findMergeable_created s (remoteURL f) queue st2) as H3.
    pose proof (getQueuedPRs_created (submitQueueURL f) st1) as H2.
    rewrite Hmerge in H3. rewrite Hqueue in H2. simpl in *.
    rewrite H3, H2. unfold ListProwJobs in Hlist.
    destruct (kc_ListProwJobs (world st)) as [r w]. injection Hlist as _ <-.
    simpl. rewrite created_app. simpl. apply app_nil_r.
Qed.

(** *** The batch descriptor *)

Lemma pullRefs_acc (s : splicer) (prs : list Z) (pulls : list kube.Pull) (st : St) :
  pullRefs s prs pulls st =
  (pulls ++ fst (pullRefs s prs [] st), snd (pullRefs s prs [] st)).
Proof.
  revert pulls st. induction prs as [|pr prs IH]; intros pulls st; simpl.
  - by rewrite app_nil_r.
  - rewrite !bind_run. destruct (gitRef s (prBranch pr) st) as [sha st1].
    rewrite (IH (pulls ++ _)), (IH [_]). simpl. by rewrite <- app_assoc.
Qed.

Lemma pullRefs_app (s : splicer) (l1 l2 : list Z) (st : St) :
  pullRefs s (l1 ++ l2) [] st =
  (fst (pullRefs s l1 [] st) ++ fst (pullRefs s l2 [] (snd (pullRefs s l1 [] st))),
   snd (pullRefs s l2 [] (snd (pullRefs s l1 [] st)))).
Proof.
  revert st. induction l1 as [|pr l1 IH]; intros st; simpl.
  - by destruct (pullRefs s l2 [] st).
  - rewrite !bind_run. destruct (gitRef s (prBranch pr) st) as [sha st1].
    by rewrite (pullRefs_acc s (l1 ++ l2)), (pullRefs_acc s l1), IH.
Qed.

Lemma pullRefs_numbers (s : splicer) (prs : list Z) (st : St) :
  kube.Number <$> fst (pullRefs s prs [] st) = prs.
Proof.
  revert st. induction prs as [|pr prs IH]; intros st; simpl; [done|].
  rewrite bind_run. destruct (gitRef s (prBranch pr) st) as [sha st1].
  rewrite pullRefs_acc. simpl. by rewrite IH.
Qed.

Lemma makeBuildRefs_run (s : splicer) (org repo : string) (prs : list Z) (st : St) :
  fst (makeBuildRefs s org repo prs st) =
  {| kube.Org := org; kube.Repo := repo; kube.BaseRef := "master";
     kube.BaseSHA := fst (gitRef s "master" st);
     kube.Pulls := fst (pullRefs s prs [] (snd (gitRef s "master" st))) |}.
Proof.
  unfold makeBuildRefs. rewrite bind_run.
  destruct (gitRef s "master" st) as [sha st1]. rewrite bind_run.
  simpl. by destruct (pullRefs s prs [] st1).
Qed.

Lemma startBatch_next (f : Flags) (s : splicer) (currentJobs : list kube.ProwJob)
    (batchPRs : list Z) (st : St) :
  fst (startBatch f s currentJobs batchPRs st) = Next 5.
Proof.
  unfold startBatch. rewrite bind_run.
  destruct (makeBuildRefs _ _ _ _ st) as [refs st1]. rewrite bind_run.
  destruct (Presubmits _ st1) as [ps st2]. rewrite bind_run.
  by destruct (submitJobs _ refs st2).
Qed.

End SpliceFacts.

(** ** The properties at work in the simulated world *)

Section Simulated.
#[local] Existing Instances Sim.packages Sim.env.

(** The scenario of the specification: of the queue 101, 102, 103, where
    102 conflicts, 101 and 103 are accepted. *)
Lemma findMergeable_sublist_witness :
  fst (findMergeable Sim.sp Sim.remote_url [101; 102; 103] Sim.st0) = Ok [101; 103] ∧
  [101; 103] `sublist_of` [101; 102; 103] ∧
  [101; 103] ⊆ [101; 102; 103] ∧
  (0 ≤ length [101; 103] ≤ length [101; 102; 103])%nat.
Proof.
  split; [vm_compute; reflexivity|].
  apply (findMergeable_sublist Sim.sp Sim.remote_url [101; 102; 103] [101; 103] Sim.st0
           (snd (findMergeable Sim.sp Sim.remote_url [101; 102; 103] Sim.st0))).
  apply run_result. vm_compute. reflexivity.
Defined.

(** The scenario of the specification: with the presubmits A and B
    required, a successful batch job with context A for the identical
    descriptor leaves B only. *)
Example neededPresubmits_identical :
  config.Name <$>
    neededPresubmits Sim.config0
      [Sim.job_of kube.BatchJob "A" Sim.refs0 kube.SuccessState true] Sim.refs0 = ["e2e"].
Proof. vm_compute. reflexivity. Qed.

(** With another head for one pull the same job removes nothing. *)
Lemma neededPresubmits_spec_witness :
  Refs_String Sim.refs1 ≠ Refs_String Sim.refs0 ∧
  neededPresubmits Sim.config0
    ([] ++ Sim.job_of kube.BatchJob "A" Sim.refs1 kube.SuccessState true :: [])
    Sim.refs0 =
  neededPresubmits Sim.config0 ([] ++ []) Sim.refs0.
Proof.
  assert (Refs_String Sim.refs1 ≠ Refs_String Sim.refs0) as Hne
    by (vm_compute; discriminate).
  split; [exact Hne|].
  apply (proj2 (neededPresubmits_spec Sim.config0 Sim.refs0) []
           (Sim.job_of kube.BatchJob "A" Sim.refs1 kube.SuccessState true) []).
  exact Hne.
Defined.

(** C4, as the claim has it, fails: with #102 conflicting after #101 was
    merged and [merge --abort] failing, [findMergeable] returns an error
    and no list at all. *)
Lemma conflict_aborts_when_abort_fails :
  let st1 := snd (mergeLoop Sim.sp [101] [] (Sim.ready Sim.st_abort_fails)) in
  fst (mergeLoop Sim.sp [101] [] (Sim.ready Sim.st_abort_fails)) = Ok [101] ∧
  fst (gitCall Sim.sp (mergeArgs 102) st1) = Some "exit status 1" ∧
  fst (findMergeable Sim.sp Sim.remote_url [101; 102; 103] Sim.st_abort_fails) =
  Err "exit status 128".
Proof. vm_compute. repeat split; reflexivity. Qed.

(** The same conflict when [merge --abort] succeeds: #102 is left out and
    the loop goes on with #103. *)
Lemma conflict_excludes_candidate_witness :
  let st1 := snd (mergeLoop Sim.sp [101] [] (Sim.ready Sim.st0)) in
  let st2 := snd (gitCall Sim.sp (mergeArgs 102) st1) in
  let st3 := snd (gitCall Sim.sp ["merge"; "--abort"] st2) in
  mergeLoop Sim.sp ([101] ++ 102 :: [103]) [] (Sim.ready Sim.st0) =
  mergeLoop Sim.sp [103] [101] st3.
Proof.
  intros st1 st2 st3.
  apply (conflict_excludes_candidate Sim.sp [101] 102 [103] [] [101]
           (Sim.ready Sim.st0) st1 st2 st3 "exit status 1" None);
    apply run_result; vm_compute; reflexivity.
Defined.

(** C5, as the claim has it, fails: when no ref resolves, the iteration
    still builds a descriptor, with empty SHAs, submits the jobs for it and
    sets the cooldown. *)
Lemma unresolved_refs_still_submit :
  let r := tick Sim.flags Sim.sp 0 Sim.st_revparse_fails in
  fst (gitRef Sim.sp "master" Sim.st_revparse_fails) = "" ∧
  fst r = Next 5 ∧
  (λ pj, kube.Refs_ (kube.Spec pj)) <$> created (trace (snd r)) =
  [Sim.refs_blank; Sim.refs_blank].
Proof. vm_compute. repeat split; reflexivity. Qed.

(** An iteration that finds the batch job B pending does nothing but list
    the jobs. *)
Lemma tick_single_flight_witness :
  tick Sim.flags Sim.sp 0 Sim.st_batch_running =
  (Next 0, {| world := world Sim.st_batch_running; trace := [] ++ [EvListProwJobs] |}).
Proof.
  apply (tick_single_flight Sim.flags Sim.sp 0 Sim.st_batch_running
           (Sim.jobs (world Sim.st_batch_running)) (world Sim.st_batch_running)
           (Sim.job_of kube.BatchJob "B" Sim.refs0 kube.PendingState false)).
  - reflexivity.
  - do 2 apply list_elem_of_further. apply list_elem_of_here.
  - reflexivity.
  - reflexivity.
Defined.

(** The queue of the simulated world: the entry for another base branch is
    dropped. *)
Lemma getQueuedPRs_spec_witness :
  fst (getQueuedPRs (submitQueueURL Sim.flags) Sim.st0) = Ok [101; 102; 103].
Proof.
  apply (getQueuedPRs_spec (submitQueueURL Sim.flags) Sim.st0
           (Sim.e2e_queue Sim.w0) Sim.w0 Sim.w0 (Sim.e2e_queue Sim.w0)
           (Sim.e2e_queue Sim.w0)); reflexivity.
Defined.

(** With #102 and #103 conflicting only #101 is accepted, and the iteration
    creates no job. *)
Lemma tick_no_single_batch_witness :
  let st1 := snd (ListProwJobs Sim.st_one_mergeable) in
  let st2 := snd (getQueuedPRs (submitQueueURL Sim.flags) st1) in
  let st3 := snd (findMergeable Sim.sp (remoteURL Sim.flags) [101; 102; 103] st2) in
  fst (findMergeable Sim.sp (remoteURL Sim.flags) [101; 102; 103] st2) = Ok [101] ∧
  tick Sim.flags Sim.sp 0 Sim.st_one_mergeable = (Next 0, st3) ∧
  created (trace st3) = created (trace Sim.st_one_mergeable).
Proof.
  intros st1 st2 st3. split; [vm_compute; reflexivity|].
  apply (tick_no_single_batch Sim.flags Sim.sp 0 Sim.st_one_mergeable st1 st2 st3
           [] [101; 102; 103] [101]).
  - apply run_result. reflexivity.
  - reflexivity.
  - lia.
  - apply run_result. reflexivity.
  - discriminate.
  - apply run_result. vm_compute. reflexivity.
  - simpl. lia.
Defined.

End Simulated.

(** ** Further properties of the job reconciler *)

Section ReconcilerMore.
Context `{Packages}.

(** A filter by a stronger test keeps a subsequence of what a filter by a
    weaker test keeps. *)
Lemma filter_sublist_impl {A : Type} (P Q : A → Prop)
    `{!∀ x, Decision (P x)} `{!∀ x, Decision (Q x)} (l : list A) :
  (∀ x, Q x → P x) → filter Q l `sublist_of` filter P l.
Proof.
  intros Himpl. induction l as [|x l IH]; [done|].
  rewrite !filter_cons.
  destruct (decide (Q x)) as [Hq|Hq].
  - rewrite decide_True by auto. by apply sublist_skip.
  - destruct (decide (P x)); [by apply sublist_cons | done].
Qed.

Lemma filter_nil_Forall {A : Type} (P : A → Prop) `{!∀ x, Decision (P x)}
    (l : list A) :
  filter P l = [] ↔ ∀ x, x ∈ l → ¬ P x.
Proof.
  split.
  - intros Hnil x Hin Hp. by eapply filter_nil_not_elem_of.
  - intros Hall. induction l as [|x l IH]; [done|].
    rewrite filter_cons, decide_False by (apply Hall; left).
    apply IH. intros y Hy. apply Hall. by right.
Qed.

(** The contexts that are no longer pending are those of the passed jobs. *)
Lemma pending_iff (currentJobs : list kube.ProwJob) (refs : kube.Refs)
    (job : config.Presubmit) :
  pending currentJobs refs job ↔
  ¬ ∃ j, j ∈ currentJobs ∧ passed refs j ∧
         kube.Context (kube.Spec j) = config.Context job.
Proof.
  unfold pending. rewrite completedJobs_filter, list_elem_of_fmap.
  split.
  - intros Hn (j & Hin & Hp & Hctx). apply Hn. exists j.
    split; [done|]. by apply list_elem_of_filter.
  - intros Hn (j & Hctx & (Hp & Hin)%list_elem_of_filter). apply Hn. eauto.
Qed.

Lemma not_pending_iff (currentJobs : list kube.ProwJob) (refs : kube.Refs)
    (job : config.Presubmit) :
  ¬ pending currentJobs refs job ↔
  ∃ j, j ∈ currentJobs ∧ passed refs j ∧
       kube.Context (kube.Spec j) = config.Context job.
Proof.
  split.
  - intros Hn. unfold pending in Hn. apply dec_stable in Hn.
    rewrite completedJobs_filter in Hn.
    apply list_elem_of_fmap in Hn as (j & Hctx & (Hp & Hin)%list_elem_of_filter).
    eauto.
  - intros Hex Hp. by apply pending_iff in Hp.
Qed.

(** X1. [requiredPresubmits] keeps, in the order of the configuration,
    exactly the presubmits that always run and report. *)
Theorem requiredPresubmits_keeps (presubmits : list config.Presubmit) :
  requiredPresubmits presubmits `sublist_of` presubmits ∧
  ∀ job, job ∈ requiredPresubmits presubmits ↔
         job ∈ presubmits ∧ config.AlwaysRun job = true ∧
         config.SkipReport job = false.
Proof.
  rewrite requiredPresubmits_filter. split; [apply sublist_filter|].
  intros job. rewrite list_elem_of_filter. unfold required. tauto.
Qed.

(** X2. [completedJobs] works job by job: on a concatenation it is the
    concatenation of the results, filtering a second time for the same refs
    changes nothing, and the result is a subsequence of the jobs. *)
Theorem completedJobs_compose (jobs1 jobs2 : list kube.ProwJob) (refs : kube.Refs) :
  completedJobs (jobs1 ++ jobs2) refs =
    completedJobs jobs1 refs ++ completedJobs jobs2 refs ∧
  completedJobs (completedJobs jobs1 refs) refs = completedJobs jobs1 refs ∧
  completedJobs jobs1 refs `sublist_of` jobs1.
Proof.
  rewrite !completedJobs_filter. split; [apply filter_app|]. split.
  - rewrite list_filter_filter. apply list_filter_iff. tauto.
  - apply sublist_filter.
Qed.

(** X3. When no current job is a complete, successful batch job for the
    refs (in particular when there is no job at all), every required
    presubmit is needed. *)
Theorem neededPresubmits_none_passed (presubmits : list config.Presubmit)
    (currentJobs : list kube.ProwJob) (refs : kube.Refs) :
  (∀ j, j ∈ currentJobs → ¬ passed refs j) →
  neededPresubmits presubmits currentJobs refs = requiredPresubmits presubmits.
Proof.
  intros Hnone. rewrite neededPresubmits_filter, requiredPresubmits_filter.
  rewrite list_filter_filter. apply list_filter_iff. intros job.
  rewrite pending_iff. split; [tauto|]. intros Hr. split; [|done].
  intros (j & Hin & Hp & _). by apply (Hnone j).
Qed.

(** X4. Nothing is needed if and only if every required presubmit has its
    context among the complete, successful batch jobs for the refs. *)
Theorem neededPresubmits_nil_iff (presubmits : list config.Presubmit)
    (currentJobs : list kube.ProwJob) (refs : kube.Refs) :
  neededPresubmits presubmits currentJobs refs = [] ↔
  ∀ job, job ∈ presubmits → required job →
         ∃ j, j ∈ currentJobs ∧ passed refs j ∧
              kube.Context (kube.Spec j) = config.Context job.
Proof.
  rewrite neededPresubmits_filter, list_filter_filter, filter_nil_Forall.
  split.
  - intros Hall job Hin Hr.
    apply not_pending_iff. intros Hp. by apply (Hall job Hin).
  - intros Hall job Hin [Hp Hr]. apply pending_iff in Hp. apply Hp. auto.
Qed.

(** X5. The needed presubmits do not depend on the order of the job
    records. *)
Theorem neededPresubmits_perm (presubmits : list config.Presubmit)
    (jobs jobs' : list kube.ProwJob) (refs : kube.Refs) :
  jobs ≡ₚ jobs' →
  neededPresubmits presubmits jobs refs = neededPresubmits presubmits jobs' refs.
Proof.
  intros Hperm. rewrite !neededPresubmits_filter.
  apply list_filter_iff. intros job. rewrite !pending_iff.
  split; intros Hn (j & Hin & Hrest); apply Hn; exists j;
    (split; [|done]); [by rewrite Hperm | by rewrite <- Hperm].
Qed.

(** X6. More job records never add a needed presubmit: with further jobs
    the needed presubmits are a subsequence of those needed before. *)
Theorem neededPresubmits_antitone (presubmits : list config.Presubmit)
    (jobs more : list kube.ProwJob) (refs : kube.Refs) :
  neededPresubmits presubmits (jobs ++ more) refs `sublist_of`
  neededPresubmits presubmits jobs refs.
Proof.
  rewrite !neededPresubmits_filter. apply filter_sublist_impl.
  intros job. rewrite !pending_iff. intros Hn (j & Hin & Hrest).
  apply Hn. exists j. split; [|done]. apply elem_of_app. by left.
Qed.

End ReconcilerMore.

(** ** Further properties of the splicer and of the main loop *)

Section SpliceMore.
Context `{Packages} `{Env}.

(** *** Traces *)

Lemma gitCall_trace (s : splicer) (args : list string) (st : St) :
  trace (snd (gitCall s args st)) = trace st ++ [gitEvent s args].
Proof. by rewrite gitCall_run. Qed.

Lemma gitRef_trace (s : splicer) (ref : string) (st : St) :
  trace (snd (gitRef s ref st)) = trace st ++ [gitEvent s ["rev-parse"; ref]].
Proof. by rewrite gitRef_run. Qed.

(** When all the calls of a chain succeed, all of them ran, in order. *)
Lemma gitCalls_ok_trace (s : splicer) (l : list (list string)) (st st1 : St) :
  gitCalls s l st = (None, st1) →
  trace st1 = trace st ++ (gitEvent s <$> l).
Proof.
  revert st. induction l as [|args l IH]; intros st; simpl.
  - intros [= <-]. by rewrite app_nil_r.
  - rewrite bind_run. pose proof (gitCall_trace s args st) as Ht.
    destruct (gitCall s args st) as [[e|] st2]; [done|].
    intros Hrest%IH. simpl in Ht. rewrite Hrest, Ht. by rewrite <- app_assoc.
Qed.

Lemma created_gitEvents {A : Type} (s : splicer) (f : A → list string) (l : list A) :
  created ((λ x, gitEvent s (f x)) <$> l) = [].
Proof. by induction l. Qed.

Lemma pullRefs_trace (s : splicer) (prs : list Z) (pulls : list kube.Pull) (st : St) :
  trace (snd (pullRefs s prs pulls st)) =
  trace st ++ ((λ pr, gitEvent s ["rev-parse"; prBranch pr]) <$> prs).
Proof.
  revert pulls st. induction prs as [|pr prs IH]; intros pulls st; simpl.
  - by rewrite app_nil_r.
  - rewrite bind_run. pose proof (gitRef_trace s (prBranch pr) st) as Ht.
    destruct (gitRef s (prBranch pr) st) as [sha st1]. simpl in Ht.
    rewrite IH, Ht. by rewrite <- app_assoc.
Qed.

(** X7. [gitCalls] returns the first failure: when the calls before a
    failing call succeed, the chain returns the error of that call in the
    state that call leaves, and the calls after it are not run. *)
Theorem gitCalls_first_failure (s : splicer) (before : list (list string))
    (args : list string) (after : list (list string)) (st st1 st2 : St) (e : error) :
  gitCalls s before st = (None, st1) →
  gitCall s args st1 = (Some e, st2) →
  gitCalls s (before ++ args :: after) st = (Some e, st2) ∧
  trace st2 = trace st ++ (gitEvent s <$> before ++ [args]).
Proof.
  intros Hbefore Hcall. split.
  - rewrite gitCalls_app, Hbefore. simpl. by rewrite bind_run, Hcall.
  - pose proof (gitCall_trace s args st1) as Ht. rewrite Hcall in Ht. simpl in Ht.
    rewrite Ht, (gitCalls_ok_trace s before st st1 Hbefore), fmap_app.
    by rewrite <- app_assoc.
Qed.

(** Each candidate costs one merge, and one abort more when it is left
    out. *)
Lemma mergeLoop_git_calls (s : splicer) (prs out res : list Z) (st st' : St) :
  mergeLoop s prs out st = (Ok res, st') →
  (length (trace st') + length res =
   length (trace st) + length out + 2 * length prs)%nat.
Proof.
  revert out st. induction prs as [|pr prs IH]; intros out st; simpl.
  - intros [= <- <-]. lia.
  - rewrite bind_run. pose proof (gitCall_trace s (mergeArgs pr) st) as H1.
    destruct (gitCall s (mergeArgs pr) st) as [[e|] st1]; simpl in H1.
    + rewrite bind_run. pose proof (gitCall_trace s ["merge"; "--abort"] st1) as H2.
      destruct (gitCall s ["merge"; "--abort"] st1) as [[e'|] st2]; [done|].
      simpl in H2. intros Hrest%IH.
      rewrite H2, H1, !length_app in Hrest. simpl in Hrest. lia.
    + intros Hrest%IH. rewrite H1, !length_app in Hrest. simpl in Hrest. lia.
Qed.

(** X8. A successful [findMergeable] over [n] candidates of which it accepts
    [k] makes exactly [6 + 2n - k] git calls: six to reset and fetch, one
    merge for each candidate and one abort for each candidate left out. *)
Theorem findMergeable_git_calls (s : splicer) (remote : string) (prs out : list Z)
    (st st' : St) :
  findMergeable s remote prs st = (Ok out, st') →
  (length (trace st') + length out = length (trace st) + 6 + 2 * length prs)%nat.
Proof.
  unfold findMergeable. rewrite bind_run.
  destruct (gitCalls s _ st) as [[e|] st1] eqn:Hsetup; [done|].
  intros Hloop%mergeLoop_git_calls.
  apply gitCalls_ok_trace in Hsetup.
  rewrite Hsetup, length_app, length_fmap in Hloop. simpl in Hloop. lia.
Qed.

(** X9. One local branch per PR: [findMergeable] fetches every candidate,
    in order, into the branch that it then merges and that [makeBuildRefs]
    resolves, and different PR numbers have different branches. *)
Theorem pr_branches (remote : string) (prs : list Z) :
  fetchArgs remote prs =
    ["fetch"; "-f"; remote; "master:master"] ++
    ((λ pr, "pull/" +:+ pretty pr +:+ "/head:" +:+ prBranch pr) <$> prs) ∧
  (∀ pr, last (mergeArgs pr) = Some (prBranch pr)) ∧
  (∀ pr pr', prBranch pr = prBranch pr' → pr = pr').
Proof.
  split; [|split].
  - unfold fetchArgs.
    generalize ["fetch"; "-f"; remote; "master:master"].
    induction prs as [|pr prs IH]; intros acc; simpl.
    + by rewrite app_nil_r.
    + rewrite IH, <- app_assoc. done.
  - done.
  - intros pr pr' Heq. unfold prBranch in Heq.
    apply (inj (String.app "pr/")) in Heq. by apply (inj pretty) in Heq.
Qed.

Lemma makeBuildRefs_run_trace (s : splicer) (org repo : string) (prs : list Z) (st : St) :
  trace (snd (makeBuildRefs s org repo prs st)) =
  trace st ++ ((λ ref, gitEvent s ["rev-parse"; ref]) <$> "master" :: (prBranch <$> prs)).
Proof.
  unfold makeBuildRefs. rewrite bind_run.
  pose proof (gitRef_trace s "master" st) as H1.
  destruct (gitRef s "master" st) as [sha st1]. rewrite bind_run.
  pose proof (pullRefs_trace s prs [] st1) as H2.
  destruct (pullRefs s prs [] st1) as [pulls st2]. simpl in *.
  rewrite H2, H1, <- app_assoc. simpl. by rewrite <- list_fmap_compose.
Qed.

Lemma makeBuildRefs_created (s : splicer) (org repo : string) (prs : list Z) (st : St) :
  created (trace (snd (makeBuildRefs s org repo prs st))) = created (trace st).
Proof.
  rewrite makeBuildRefs_run_trace, created_app,
    (created_gitEvents s (λ ref, ["rev-parse"; ref])).
  apply app_nil_r.
Qed.

(** X10. [makeBuildRefs] only reads the repository: its git calls are
    [rev-parse master] and then [rev-parse pr/N] for each PR in order, and it
    creates no job. *)
Theorem makeBuildRefs_trace (s : splicer) (org repo : string) (prs : list Z) (st : St) :
  trace (snd (makeBuildRefs s org repo prs st)) =
  trace st ++ ((λ ref, gitEvent s ["rev-parse"; ref]) <$> "master" :: (prBranch <$> prs)) ∧
  created (trace (snd (makeBuildRefs s org repo prs st))) = created (trace st).
Proof. split; [apply makeBuildRefs_run_trace | apply makeBuildRefs_created]. Qed.

(** *** The submit queue *)


(** *** Job submission *)

Lemma ListProwJobs_created (st : St) :
  created (trace (snd (ListProwJobs st))) = created (trace st).
Proof.
  unfold ListProwJobs. destruct (kc_ListProwJobs (world st)) as [r w]. simpl.
  rewrite created_app. apply app_nil_r.
Qed.

Lemma submitJobs_run_created (jobs : list config.Presubmit) (refs : kube.Refs) (st : St) :
  created (trace (snd (submitJobs jobs refs st))) =
  created (trace st) ++ ((λ job, NewBatchProwJob job refs) <$> jobs).
Proof.
  revert st. induction jobs as [|job jobs IH]; intros st; simpl.
  - by rewrite app_nil_r.
  - rewrite bind_run. unfold CreateProwJob at 1.
    destruct (kc_CreateProwJob _ (world st)) as [r w]. rewrite IH. simpl.
    rewrite created_app. simpl. by rewrite <- app_assoc.
Qed.

(** X12. The submission loop asks the backend to create one batch job for
    each needed presubmit, in order, whatever the backend answers: a
    creation that fails does not stop the creations after it. *)
Theorem submitJobs_created (jobs : list config.Presubmit) (refs : kube.Refs) (st : St) :
  created (trace (snd (submitJobs jobs refs st))) =
    created (trace st) ++ ((λ job, NewBatchProwJob job refs) <$> jobs) ∧
  length (trace (snd (submitJobs jobs refs st))) = (length (trace st) + length jobs)%nat.
Proof.
  split; [apply submitJobs_run_created|].
  revert st. induction jobs as [|job jobs IH]; intros st; simpl; [lia|].
  rewrite bind_run. unfold CreateProwJob at 1.
  destruct (kc_CreateProwJob _ (world st)) as [r w]. rewrite IH. simpl.
  rewrite length_app. simpl. lia.
Qed.

Lemma startBatch_created (f : Flags) (s : splicer) (currentJobs : list kube.ProwJob)
    (batch : list Z) (st : St) :
  let refs := fst (makeBuildRefs s (orgName f) (repoName f) batch st) in
  let st1 := snd (makeBuildRefs s (orgName f) (repoName f) batch st) in
  let presubmits :=
    default [] (ca_Config_Presubmits (world st1) !! (orgName f +:+ "/" +:+ repoName f)) in
  created (trace (snd (startBatch f s currentJobs batch st))) =
  created (trace st) ++
  ((λ job, NewBatchProwJob job refs) <$> neededPresubmits presubmits currentJobs refs).
Proof.
  intros refs st1 presubmits. subst refs st1 presubmits.
  unfold startBatch. rewrite bind_run.
  pose proof (makeBuildRefs_created s (orgName f) (repoName f) batch st) as Hc.
  destruct (makeBuildRefs s (orgName f) (repoName f) batch st) as [refs st1].
  simpl in *. rewrite bind_run. unfold Presubmits at 1. rewrite bind_run.
  pose proof (submitJobs_run_created
    (neededPresubmits
       (default [] (ca_Config_Presubmits (world st1) !! (orgName f +:+ "/" +:+ repoName f)))
       currentJobs refs) refs st1) as Hs.
  destruct (submitJobs _ refs st1) as [u st2]. simpl in *. by rewrite Hs, Hc.
Qed.

(** *** One iteration and several iterations of the main loop *)

Lemma reach_created (f : Flags) (s : splicer) (st st1 st2 st3 : St)
    (r1 : Res (list kube.ProwJob)) (r2 r3 : Res (list Z)) (queue : list Z) :
  ListProwJobs st = (r1, st1) →
  getQueuedPRs (submitQueueURL f) st1 = (r2, st2) →
  findMergeable s (remoteURL f) queue st2 = (r3, st3) →
  created (trace st3) = created (trace st).
Proof.
  intros Hlist Hqueue Hmerge.
  pose proof (ListProwJobs_created st) as H1.
  pose proof (getQueuedPRs_created (submitQueueURL f) st1) as H2.
  pose proof (findMergeable_created s (remoteURL f) queue st2) as H3.
  rewrite Hlist in H1. rewrite Hqueue in H2. rewrite Hmerge in H3.
  simpl in *. congruence.
Qed.

(** An iteration either starts a batch and sets the cooldown to 5, or
    creates no job and leaves the cooldown, decrements it when it is
    positive, or panics. *)
Lemma tick_cases (f : Flags) (s : splicer) (cooldown : Z) (st : St) :
  fst (tick f s cooldown st) = Next 5 ∨
  (created (trace (snd (tick f s cooldown st))) = created (trace st) ∧
   (fst (tick f s cooldown st) = Next cooldown ∨
    (0 < cooldown ∧ fst (tick f s cooldown st) = Next (cooldown - 1)) ∨
    fst (tick f s cooldown st) = Panic)).
Proof.
  unfold tick. rewrite bind_run.
  pose proof (ListProwJobs_created st) as Hl.
  destruct (ListProwJobs st) as [[currentJobs|e] st1]; simpl in Hl; [|by auto].
  case_bool_decide; [by auto|].
  case_bool_decide; [by auto 6|].
  rewrite bind_run.
  pose proof (getQueuedPRs_created (submitQueueURL f) st1) as Hq.
  destruct (getQueuedPRs _ st1) as [[queue|e] st2]; simpl in Hq;
    [|right; simpl; split; [congruence | auto]].
  case_bool_decide; [right; simpl; split; [congruence | auto]|].
  rewrite bind_run.
  pose proof (findMergeable_created s (remoteURL f) queue st2) as Hf.
  destruct (findMergeable _ _ queue st2) as [[batchPRs|e] st3]; simpl in Hf;
    [|right; simpl; split; [congruence | auto]].
  case_bool_decide; [right; simpl; split; [congruence | auto]|].
  case_bool_decide; [case_bool_decide|].
  - right. simpl. split; [congruence | auto].
  - left. apply startBatch_next.
  - left. apply startBatch_next.
Qed.

(** While the cooldown is positive an iteration lists the jobs and does
    nothing else; it leaves the cooldown or decrements it. *)
Lemma tick_cooling (f : Flags) (s : splicer) (cooldown : Z) (st : St) :
  0 < cooldown →
  ∃ cooldown', fst (tick f s cooldown st) = Next cooldown' ∧
               cooldown - 1 ≤ cooldown' ≤ cooldown ∧
               trace (snd (tick f s cooldown st)) = trace st ++ [EvListProwJobs].
Proof.
  intros Hpos. unfold tick, ListProwJobs. rewrite bind_run.
  destruct (kc_ListProwJobs (world st)) as [[currentJobs|e] w1]; simpl.
  - case_bool_decide; simpl.
    + exists cooldown. split; [done|]. split; [lia | done].
    + rewrite bool_decide_eq_true_2 by done. simpl.
      exists (cooldown - 1). split; [done|]. split; [lia | done].
  - exists cooldown. split; [done|]. split; [lia | done].
Qed.

(** X13. When [findMergeable] accepts at least two PRs and the batch size
    flag is not negative, the iteration builds the descriptor of the first
    [maxBatchSize] accepted PRs in their order, asks the backend to create
    one batch job for each needed presubmit of the configuration read at
    that point, and sets the cooldown to 5. *)
Theorem tick_starts_batch (f : Flags) (s : splicer) (cooldown : Z)
    (st st1 st2 st3 : St) (currentJobs : list kube.ProwJob) (queue batchPRs : list Z) :
  ListProwJobs st = (Ok currentJobs, st1) →
  runningJobs currentJobs = [] →
  cooldown ≤ 0 →
  getQueuedPRs (submitQueueURL f) st1 = (Ok queue, st2) →
  queue ≠ [] →
  findMergeable s (remoteURL f) queue st2 = (Ok batchPRs, st3) →
  (2 ≤ length batchPRs)%nat →
  0 ≤ maxBatchSize f →
  let batch := take (Z.to_nat (maxBatchSize f)) batchPRs in
  let refs := fst (makeBuildRefs s (orgName f) (repoName f) batch st3) in
  let st4 := snd (makeBuildRefs s (orgName f) (repoName f) batch st3) in
  let presubmits :=
    default [] (ca_Config_Presubmits (world st4) !! (orgName f +:+ "/" +:+ repoName f)) in
  fst (tick f s cooldown st) = Next 5 ∧
  kube.Number <$> kube.Pulls refs = batch ∧
  created (trace (snd (tick f s cooldown st))) =
    created (trace st) ++
    ((λ job, NewBatchProwJob job refs) <$> neededPresubmits presubmits currentJobs refs).
Proof.
  intros Hlist Hrun Hcool Hqueue Hne Hmerge Hlen Hmax batch refs st4 presubmits.
  assert (tick f s cooldown st = startBatch f s currentJobs batch st3) as ->.
  { unfold tick. rewrite bind_run, Hlist, Hrun. simpl.
    rewrite (bool_decide_eq_false_2 (0 < cooldown)) by lia.
    rewrite bind_run, Hqueue.
    rewrite bool_decide_eq_false_2 by (by destruct queue).
    rewrite bind_run, Hmerge.
    rewrite bool_decide_eq_false_2 by lia.
    case_bool_decide.
    - by rewrite bool_decide_eq_false_2 by lia.
    - subst batch. by rewrite take_ge by lia. }
  split; [apply startBatch_next|]. split.
  - subst refs. rewrite makeBuildRefs_run. simpl. apply pullRefs_numbers.
  - rewrite startBatch_created. f_equal.
    apply (reach_created f s st st1 st2 st3 _ _ _ queue Hlist Hqueue Hmerge).
Qed.

(** X14. When [findMergeable] accepts at least two PRs and the batch size
    flag is negative, the slice expression is out of range: the iteration
    panics, after the merges and before any job is created. *)
Theorem tick_negative_batch_size (f : Flags) (s : splicer) (cooldown : Z)
    (st st1 st2 st3 : St) (currentJobs : list kube.ProwJob) (queue batchPRs : list Z) :
  ListProwJobs st = (Ok currentJobs, st1) →
  runningJobs currentJobs = [] →
  cooldown ≤ 0 →
  getQueuedPRs (submitQueueURL f) st1 = (Ok queue, st2) →
  queue ≠ [] →
  findMergeable s (remoteURL f) queue st2 = (Ok batchPRs, st3) →
  (2 ≤ length batchPRs)%nat →
  maxBatchSize f < 0 →
  tick f s cooldown st = (Panic, st3) ∧
  created (trace st3) = created (trace st).
Proof.
  intros Hlist Hrun Hcool Hqueue Hne Hmerge Hlen Hmax. split.
  - unfold tick. rewrite bind_run, Hlist, Hrun. simpl.
    rewrite (bool_decide_eq_false_2 (0 < cooldown)) by lia.
    rewrite bind_run, Hqueue.
    rewrite bool_decide_eq_false_2 by (by destruct queue).
    rewrite bind_run, Hmerge.
    rewrite bool_decide_eq_false_2 by lia.
    rewrite bool_decide_eq_true_2 by lia.
    by rewrite bool_decide_eq_true_2 by lia.
  - apply (reach_created f s st st1 st2 st3 _ _ _ queue Hlist Hqueue Hmerge).
Qed.

(** X15. An iteration that asks the backend to create a job sets the
    cooldown to 5: whenever its outcome is anything else, the jobs created
    so far are those created before it. *)
Theorem tick_created_sets_cooldown (f : Flags) (s : splicer) (cooldown : Z) (st : St) :
  fst (tick f s cooldown st) ≠ Next 5 →
  created (trace (snd (tick f s cooldown st))) = created (trace st).
Proof.
  intros Hne. destruct (tick_cases f s cooldown st) as [H5|[Hc _]]; [done | exact Hc].
Qed.

(** X16. The cooldown stays between 0 and 5: from a cooldown in that range,
    as the 0 that [main] starts with, every number of iterations leaves a
    cooldown in that range. *)
Theorem ticks_cooldown_bounds (n : nat) (f : Flags) (s : splicer)
    (cooldown cooldown' : Z) (st : St) :
  0 ≤ cooldown ≤ 5 →
  fst (ticks n f s cooldown st) = Next cooldown' →
  0 ≤ cooldown' ≤ 5.
Proof.
  revert cooldown st. induction n as [|n IH]; intros cooldown st Hc; simpl.
  - intros [= <-]. done.
  - rewrite bind_run. pose proof (tick_cases f s cooldown st) as Hcases.
    destruct (tick f s cooldown st) as [[c|] st1]; simpl in Hcases; [|done].
    apply IH.
    destruct Hcases as [[= ->]|[_ [[= ->]|[[Hpos [= ->]]|[=]]]]]; lia.
Qed.

(** X17. The cooldown holds the loop off: from a cooldown of at least [n],
    the next [n] iterations only list the jobs (no queue request, no git
    call, no job creation) and lower the cooldown by at most [n]. *)
Theorem ticks_cooldown_window (n : nat) (f : Flags) (s : splicer) (cooldown : Z)
    (st : St) :
  Z.of_nat n ≤ cooldown →
  ∃ cooldown', fst (ticks n f s cooldown st) = Next cooldown' ∧
               cooldown - Z.of_nat n ≤ cooldown' ≤ cooldown ∧
               trace (snd (ticks n f s cooldown st)) =
               trace st ++ replicate n EvListProwJobs.
Proof.
  revert cooldown st. induction n as [|n IH]; intros cooldown st Hn; simpl.
  - exists cooldown. split; [done|]. split; [lia | by rewrite app_nil_r].
  - rewrite bind_run.
    destruct (tick_cooling f s cooldown st) as (c1 & Ho & Hc1 & Ht); [lia|].
    destruct (tick f s cooldown st) as [o st1]. simpl in Ho, Ht. subst o.
    destruct (IH c1 st1) as (c2 & Ho2 & Hc2 & Ht2); [lia|].
    exists c2. split; [done|]. split; [lia|].
    rewrite Ht2, Ht, <- app_assoc. done.
Qed.

(** X18. When the queue request fails or no queued PR has the default
    branch as its base, the iteration ends after the request: no git call
    is made, and the cooldown is left as it is. *)
Theorem tick_idle_queue (f : Flags) (s : splicer) (cooldown : Z) (st st1 st2 : St)
    (currentJobs : list kube.ProwJob) (r : Res (list Z)) :
  ListProwJobs st = (Ok currentJobs, st1) →
  runningJobs currentJobs = [] →
  cooldown ≤ 0 →
  getQueuedPRs (submitQueueURL f) st1 = (r, st2) →
  (r = Ok [] ∨ ∃ e, r = Err e) →
  tick f s cooldown st = (Next cooldown, st2).
Proof.
  intros Hlist Hrun Hcool Hqueue Hr.
  unfold tick. rewrite bind_run, Hlist, Hrun. simpl.
  rewrite (bool_decide_eq_false_2 (0 < cooldown)) by lia.
  rewrite bind_run, Hqueue. by destruct Hr as [->|[e ->]].
Qed.

(** X19. When [findMergeable] fails, the iteration ends there: no
    descriptor is built, no job is created, and the cooldown is left as it
    is, so that the next iteration tries again. *)
Theorem tick_workspace_failure (f : Flags) (s : splicer) (cooldown : Z)
    (st st1 st2 st3 : St) (currentJobs : list kube.ProwJob) (queue : list Z) (e : error) :
  ListProwJobs st = (Ok currentJobs, st1) →
  runningJobs currentJobs = [] →
  cooldown ≤ 0 →
  getQueuedPRs (submitQueueURL f) st1 = (Ok queue, st2) →
  queue ≠ [] →
  findMergeable s (remoteURL f) queue st2 = (Err e, st3) →
  tick f s cooldown st = (Next cooldown, st3) ∧
  created (trace st3) = created (trace st).
Proof.
  intros Hlist Hrun Hcool Hqueue Hne Hmerge. split.
  - unfold tick. rewrite bind_run, Hlist, Hrun. simpl.
    rewrite (bool_decide_eq_false_2 (0 < cooldown)) by lia.
    rewrite bind_run, Hqueue.
    rewrite bool_decide_eq_false_2 by (by destruct queue).
    by rewrite bind_run, Hmerge.
  - apply (reach_created f s st st1 st2 st3 _ _ _ queue Hlist Hqueue Hmerge).
Qed.

(** *** Unresolved refs *)

(** C5, as the code has it. [makeBuildRefs] always produces a descriptor,
    for the given org, repo and the base ref [master], with one pull per
    given PR number in order; a ref whose [rev-parse] fails, the base
    branch or the branch of a PR, is recorded with the empty string as its
    SHA; and the iteration goes on: it asks the backend to create one batch
    job with that descriptor for each needed presubmit and sets the
    cooldown. *)
Theorem makeBuildRefs_unresolved (s : splicer) (org repo : string) (prs : list Z)
    (st : St) :
  let refs := fst (makeBuildRefs s org repo prs st) in
  (kube.Org refs = org ∧ kube.Repo refs = repo ∧ kube.BaseRef refs = "master" ∧
   kube.Number <$> kube.Pulls refs = prs) ∧
  (∀ e, snd (fst (exec_CombinedOutput "git" ["-C"; dir s; "rev-parse"; "master"]
                    (world st))) = Some e →
        kube.BaseSHA refs = "") ∧
  (∀ before pr after e,
     prs = before ++ pr :: after →
     snd (fst (exec_CombinedOutput "git" ["-C"; dir s; "rev-parse"; prBranch pr]
                 (world (snd (pullRefs s before [] (snd (gitRef s "master" st)))))))
       = Some e →
     kube.Pulls refs !! length before = Some {| kube.Number := pr; kube.SHA := "" |}) ∧
  (∀ f currentJobs,
     orgName f = org → repoName f = repo →
     fst (startBatch f s currentJobs prs st) = Next 5 ∧
     created (trace (snd (startBatch f s currentJobs prs st))) =
       created (trace st) ++
       ((λ job, NewBatchProwJob job refs) <$>
          neededPresubmits
            (default [] (ca_Config_Presubmits
                           (world (snd (makeBuildRefs s org repo prs st)))
                         !! (org +:+ "/" +:+ repo)))
            currentJobs refs)).
Proof.
  intros refs. split; [|split; [|split]].
  - subst refs. rewrite makeBuildRefs_run. simpl. by rewrite pullRefs_numbers.
  - subst refs. rewrite makeBuildRefs_run. simpl.
    intros e He. rewrite gitRef_run. simpl. unfold resolved.
    destruct (exec_CombinedOutput _ _ _) as [[output err] w]. simpl in He.
    by rewrite He.
  - subst refs. rewrite makeBuildRefs_run. simpl.
    intros before pr after e -> He.
    rewrite pullRefs_app. simpl.
    rewrite lookup_app_r by (rewrite <- (length_fmap kube.Number), pullRefs_numbers; lia).
    rewrite <- (length_fmap kube.Number (fst (pullRefs s before [] _))), pullRefs_numbers.
    rewrite Nat.sub_diag, bind_run, gitRef_run, pullRefs_acc. simpl.
    unfold resolved.
    destruct (exec_CombinedOutput _ _ _) as [[output err] w]. simpl in He.
    by rewrite He.
  - intros f currentJobs <- <-. split; [apply startBatch_next|].
    apply startBatch_created.
Qed.

(** *** Accepting every candidate *)

Lemma mergeLoop_all_merge (s : splicer) (prs out : list Z) (st : St) :
  (∀ i pr, prs !! i = Some pr →
           fst (gitCall s (mergeArgs pr) (snd (mergeLoop s (take i prs) out st))) = None) →
  fst (mergeLoop s prs out st) = Ok (out ++ prs).
Proof.
  revert out st. induction prs as [|pr prs IH]; intros out st Hall; simpl.
  - by rewrite app_nil_r.
  - rewrite bind_run. pose proof (Hall 0%nat pr eq_refl) as Hfirst. simpl in Hfirst.
    destruct (gitCall s (mergeArgs pr) st) as [err st1] eqn:Hcall. simpl in Hfirst.
    subst err.
    rewrite IH; [by rewrite <- app_assoc|].
    intros i pr' Hi. specialize (Hall (S i) pr' Hi). simpl in Hall.
    by rewrite bind_run, Hcall in Hall.
Qed.

(** X20. When the six calls that reset, fetch and create the batch branch
    succeed and the merge of every candidate succeeds in the state the
    merges before it leave, [findMergeable] accepts every candidate: it
    returns the list it was given. *)
Theorem findMergeable_accepts_all (s : splicer) (remote : string) (prs : list Z)
    (st st1 : St) :
  gitCalls s (fetchCalls remote prs ++ [checkoutBatch]) st = (None, st1) →
  (∀ i pr, prs !! i = Some pr →
           fst (gitCall s (mergeArgs pr) (snd (mergeLoop s (take i prs) [] st1))) = None) →
  fst (findMergeable s remote prs st) = Ok prs.
Proof.
  intros Hsetup Hall. unfold findMergeable. rewrite bind_run, Hsetup.
  by rewrite mergeLoop_all_merge.
Qed.

(** *** The heads that the descriptor records *)






End SpliceMore.

(** ** The further properties at work in the simulated world *)

Section SimulatedMore.
#[local] Existing Instances Sim.packages Sim.env.

(** A successful job that is not a batch job skips nothing. *)
Lemma neededPresubmits_none_passed_witness :
  neededPresubmits Sim.config0
    [Sim.job_of kube.PresubmitJob "A" Sim.refs0 kube.SuccessState true] Sim.refs0 =
  requiredPresubmits Sim.config0.
Proof.
  apply neededPresubmits_none_passed.
  intros j ->%list_elem_of_singleton [Htype _]. discriminate Htype.
Defined.

Lemma neededPresubmits_perm_witness :
  neededPresubmits Sim.config0
    [Sim.job_of kube.BatchJob "A" Sim.refs0 kube.SuccessState true;
     Sim.job_of kube.BatchJob "B" Sim.refs0 kube.FailureState true] Sim.refs0 =
  neededPresubmits Sim.config0
    [Sim.job_of kube.BatchJob "B" Sim.refs0 kube.FailureState true;
     Sim.job_of kube.BatchJob "A" Sim.refs0 kube.SuccessState true] Sim.refs0.
Proof. apply neededPresubmits_perm. apply perm_swap. Defined.

(** A chain whose second call is not a git command stops there. *)
Lemma gitCalls_first_failure_witness :
  let st1 := snd (gitCalls Sim.sp [["reset"; "--hard"]] Sim.st0) in
  let st2 := snd (gitCall Sim.sp ["bogus"] st1) in
  gitCalls Sim.sp ([["reset"; "--hard"]] ++ ["bogus"] :: [["clean"; "-fdx"]]) Sim.st0 =
    (Some "exit status 128", st2) ∧
  trace st2 = trace Sim.st0 ++ (gitEvent Sim.sp <$> [["reset"; "--hard"]] ++ [["bogus"]]).
Proof.
  intros st1 st2.
  apply (gitCalls_first_failure Sim.sp [["reset"; "--hard"]] ["bogus"] [["clean"; "-fdx"]]
           Sim.st0 st1 st2 "exit status 128");
    apply run_result; reflexivity.
Defined.

(** The scenario of the specification costs ten git calls: six to reset and
    fetch, three merges and one abort. *)
Lemma findMergeable_git_calls_witness :
  let r := findMergeable Sim.sp Sim.remote_url [101; 102; 103] Sim.st0 in
  (length (trace (snd r)) + length [101; 103] =
   length (trace Sim.st0) + 6 + 2 * length [101; 102; 103])%nat.
Proof.
  intros r.
  apply (findMergeable_git_calls Sim.sp Sim.remote_url [101; 102; 103] [101; 103]
           Sim.st0 (snd r)).
  apply run_result. vm_compute. reflexivity.
Defined.


(** With a batch size of one, the two accepted PRs 101 and 103 are trimmed
    to 101, and the two required jobs are created for that descriptor. *)
Lemma tick_starts_batch_witness :
  let f := Sim.with_batch_size Sim.flags 1 in
  fst (tick f Sim.sp 0 Sim.st0) = Next 5 ∧
  (λ pj, (kube.Job (kube.Spec pj),
          kube.Number <$> kube.Pulls (kube.Refs_ (kube.Spec pj)))) <$>
    created (trace (snd (tick f Sim.sp 0 Sim.st0))) =
  [("unit", [101]); ("e2e", [101])].
Proof.
  intros f. split; [|vm_compute; reflexivity].
  pose (st1 := snd (ListProwJobs Sim.st0)).
  pose (st2 := snd (getQueuedPRs (submitQueueURL f) st1)).
  pose (st3 := snd (findMergeable Sim.sp (remoteURL f) [101; 102; 103] st2)).
  apply (tick_starts_batch f Sim.sp 0 Sim.st0 st1 st2 st3 [] [101; 102; 103] [101; 103]).
  - apply run_result. reflexivity.
  - reflexivity.
  - lia.
  - apply run_result. reflexivity.
  - discriminate.
  - apply run_result. vm_compute. reflexivity.
  - simpl. lia.
  - simpl. lia.
Defined.

Lemma tick_negative_batch_size_witness :
  let f := Sim.with_batch_size Sim.flags (-1) in
  fst (tick f Sim.sp 0 Sim.st0) = Panic ∧
  created (trace (snd (tick f Sim.sp 0 Sim.st0))) = [].
Proof.
  intros f.
  pose (st1 := snd (ListProwJobs Sim.st0)).
  pose (st2 := snd (getQueuedPRs (submitQueueURL f) st1)).
  pose (st3 := snd (findMergeable Sim.sp (remoteURL f) [101; 102; 103] st2)).
  destruct (tick_negative_batch_size f Sim.sp 0 Sim.st0 st1 st2 st3 []
              [101; 102; 103] [101; 103]) as [Htick Hcreated].
  - apply run_result. reflexivity.
  - reflexivity.
  - lia.
  - apply run_result. reflexivity.
  - discriminate.
  - apply run_result. vm_compute. reflexivity.
  - simpl. lia.
  - simpl. lia.
  - rewrite Htick. simpl. split; [reflexivity | exact Hcreated].
Defined.

Lemma tick_created_sets_cooldown_witness :
  created (trace (snd (tick Sim.flags Sim.sp 0 Sim.st_batch_running))) =
  created (trace Sim.st_batch_running).
Proof.
  apply tick_created_sets_cooldown. vm_compute. discriminate.
Defined.

(** Three iterations from the start: the first starts a batch, the next two
    wait for its jobs. *)
Lemma ticks_cooldown_bounds_witness :
  fst (ticks 3 Sim.flags Sim.sp 0 Sim.st0) = Next 5 ∧ 0 ≤ 5 ≤ 5.
Proof.
  assert (fst (ticks 3 Sim.flags Sim.sp 0 Sim.st0) = Next 5) as Hrun
    by (vm_compute; reflexivity).
  split; [exact Hrun|].
  apply (ticks_cooldown_bounds 3 Sim.flags Sim.sp 0 5 Sim.st0); [lia | exact Hrun].
Defined.

Lemma ticks_cooldown_window_witness :
  ∃ cooldown', fst (ticks 5 Sim.flags Sim.sp 5 Sim.st0) = Next cooldown' ∧
               5 - Z.of_nat 5 ≤ cooldown' ≤ 5 ∧
               trace (snd (ticks 5 Sim.flags Sim.sp 5 Sim.st0)) =
               trace Sim.st0 ++ replicate 5 EvListProwJobs.
Proof. apply (ticks_cooldown_window 5 Sim.flags Sim.sp 5 Sim.st0). simpl. lia. Defined.

(** A queue that only holds a PR for a release branch. *)
Lemma tick_idle_queue_witness :
  let st1 := snd (ListProwJobs Sim.st_empty_queue) in
  let st2 := snd (getQueuedPRs (submitQueueURL Sim.flags) st1) in
  tick Sim.flags Sim.sp 0 Sim.st_empty_queue = (Next 0, st2).
Proof.
  intros st1 st2.
  apply (tick_idle_queue Sim.flags Sim.sp 0 Sim.st_empty_queue st1 st2 [] (Ok [])).
  - apply run_result. reflexivity.
  - reflexivity.
  - lia.
  - apply run_result. reflexivity.
  - by left.
Defined.

(** A remote without [master]: the checkout of the batch branch fails. *)
Lemma tick_workspace_failure_witness :
  let st1 := snd (ListProwJobs Sim.st_no_master) in
  let st2 := snd (getQueuedPRs (submitQueueURL Sim.flags) st1) in
  let st3 := snd (findMergeable Sim.sp (remoteURL Sim.flags) [101; 102; 103] st2) in
  tick Sim.flags Sim.sp 0 Sim.st_no_master = (Next 0, st3) ∧
  created (trace st3) = created (trace Sim.st_no_master).
Proof.
  intros st1 st2 st3.
  apply (tick_workspace_failure Sim.flags Sim.sp 0 Sim.st_no_master st1 st2 st3 []
           [101; 102; 103] "exit status 128").
  - apply run_result. reflexivity.
  - reflexivity.
  - lia.
  - apply run_result. reflexivity.
  - discriminate.
  - apply run_result. vm_compute. reflexivity.
Defined.

(** When no ref resolves, the jobs are created for the descriptor with the
    empty SHAs. *)
Lemma makeBuildRefs_unresolved_witness :
  kube.BaseSHA (fst (makeBuildRefs Sim.sp "kubernetes" "kubernetes" [101; 103]
                       Sim.st_revparse_fails)) = "" ∧
  kube.Pulls (fst (makeBuildRefs Sim.sp "kubernetes" "kubernetes" ([101] ++ 103 :: [])
                     Sim.st_revparse_fails)) !! length [101]
  = Some {| kube.Number := 103; kube.SHA := "" |} ∧
  (λ pj, (kube.Job (kube.Spec pj), kube.Refs_ (kube.Spec pj))) <$>
    created (trace (snd (startBatch Sim.flags Sim.sp [] [101; 103] Sim.st_revparse_fails))) =
  [("unit", Sim.refs_blank); ("e2e", Sim.refs_blank)].
Proof.
  pose proof (makeBuildRefs_unresolved Sim.sp "kubernetes" "kubernetes" [101; 103]
                Sim.st_revparse_fails) as (_ & Hbase & Hpull & Hjobs).
  split; [|split].
  - apply (Hbase "exit status 128"). vm_compute. reflexivity.
  - apply (Hpull [101] 103 [] "exit status 128"); [reflexivity|].
    vm_compute. reflexivity.
  - destruct (Hjobs Sim.flags [] eq_refl eq_refl) as [_ ->].
    vm_compute. reflexivity.
Defined.

(** Without conflicts the three candidates are accepted. *)
Lemma findMergeable_accepts_all_witness :
  fst (findMergeable Sim.sp Sim.remote_url [101; 102; 103] Sim.st_no_conflict) =
  Ok [101; 102; 103].
Proof.
  apply (findMergeable_accepts_all Sim.sp Sim.remote_url [101; 102; 103]
           Sim.st_no_conflict
           (snd (gitCalls Sim.sp (fetchCalls Sim.remote_url [101; 102; 103] ++ [checkoutBatch])
                   Sim.st_no_conflict))).
  - apply run_result. vm_compute. reflexivity.
  - intros [|[|[|i]]] pr Hi; simpl in Hi; [injection Hi as <-..|discriminate Hi];
      vm_compute; reflexivity.
Defined.

End SimulatedMore.

(** ** The simulated repository behaves as the splicer needs *)

Section SimulatedRepo.
#[local] Existing Instance Repo.env.









End SimulatedRepo.
